(** * A shallow embedding of jsonschema-rewrite/src/schema/graph.rs

    The three passes of schema compilation:
    - [AdjacencyList::new]: breadth-first traversal of the document with
      identity-based deduplication and reference following;
    - [RangeGraph::try_from]: keyword recognition and range edges;
    - [RangeGraph::compress]: the compaction placeholder.

    Parsed JSON values live in an arena [heap : list Value]; a pointer
    [ptr] is an index into it, and pointer identity ([*const Value] in the
    source) is equality of indices.  The collaborators that live outside
    graph.rs (the resolver of resolving.rs, [Reference::try_from],
    [is_local], [id_of_object] and the [url] crate's [Url::join]) are the
    fields of the class [Resolving]: every theorem below holds for all of
    their behaviours. *)

From Stdlib Require Import Ascii String.
From stdpp Require Import base list gmap strings.

(** ** JSON values (serde_json::Value) *)

Abbreviation ptr := nat (only parsing).

(** [serde_json::Number]: a non-negative integer (below 2^64), a negative
    integer, or a float; the float's bits are never read by graph.rs. *)
Inductive Number :=
| PosInt (n : N)
| NegInt (z : Z)
| Float.

Inductive Value :=
| Null
| Bool (b : bool)
| Num (n : Number)
| String (s : string)
| Array (items : list ptr)
| Object (members : list (string * ptr)).

(** Dereferencing a pointer.  Every pointer of a well-formed arena is in
    range; the out-of-range case is given the value [Null]. *)
Definition deref (heap : list Value) (p : ptr) : Value :=
  default Null (heap !! p).

(** ** Outcomes: [Result<T>] plus panics *)

Inductive Res (E A : Type) :=
| Ok (a : A)
| Err (e : E)
| Panic (msg : string).
Arguments Ok {E A} a.
Arguments Err {E A} e.
Arguments Panic {E A} msg.

Global Instance res_ret E : MRet (Res E) := fun A a => Ok a.
Global Instance res_bind E : MBind (Res E) := fun A B f m =>
  match m with
  | Ok a => f a
  | Err e => Err e
  | Panic msg => Panic msg
  end.

(** [Option::unwrap] and [Vec] indexing. *)
Definition unwrap {E A} (o : option A) : Res E A :=
  match o with
  | Some a => Ok a
  | None => Panic "called `Option::unwrap()` on a `None` value"
  end.

Definition index {E A} (l : list A) (i : nat) : Res E A :=
  match l !! i with
  | Some a => Ok a
  | None => Panic "index out of bounds"
  end.

(** The outcome is never an [Err]. *)
Definition no_err {E A} (m : Res E A) : Prop := forall e, m <> Err e.

(** ** Collaborators outside graph.rs *)

Inductive Reference (Url : Type) :=
| Absolute (location : Url)
| Relative (location : string).
Arguments Absolute {Url} location.
Arguments Relative {Url} location.

Class Resolving := {
  Url : Type;
  Error : Type;
  Resolver : Type;
  (** [Url::as_str] and [Url::join] of the url crate *)
  url_as_str : Url -> string;
  url_join : Url -> string -> Res Error Url;
  (** [Resolver::resolve], [Resolver::contains], [Resolver::scope] *)
  resolve : Resolver -> string -> Res Error (list string * ptr);
  contains : Resolver -> string -> bool;
  resolver_scope : Resolver -> Url;
  (** [Reference::try_from], [is_local], [id_of_object] *)
  reference_try_from : string -> Res Error (Reference Url);
  is_local : string -> bool;
  id_of_object : list Value -> list (string * ptr) -> option string
}.

(** ** Graph data model *)

Inductive EdgeLabel :=
| Key (k : string)
| Index (i : nat).

Definition as_key (l : EdgeLabel) : option string :=
  match l with Key k => Some k | Index _ => None end.

Abbreviation NodeId := nat (only parsing).

Record Edge := { label : EdgeLabel; target : NodeId }.

(** [std::ops::Range<usize>] *)
Record Range := { start : nat; end_ : nat }.
Definition range_len (r : Range) : nat := end_ r - start r.

Inductive SlotState := New | Used.
Record NodeSlot := { id : NodeId; state : SlotState }.
Definition seen (i : NodeId) : NodeSlot := {| id := i; state := Used |}.
Definition new_slot (i : NodeId) : NodeSlot := {| id := i; state := New |}.
Definition is_new (s : NodeSlot) : bool :=
  match state s with New => true | Used => false end.

(** [Vec<&'s Value>]: the sentinel is the static [&Value::Null], whose
    address is distinct from every value of the document. *)
Inductive ValueRef :=
| StaticNull
| At (p : ptr).

Record AdjacencyList := {
  nodes : list ValueRef;
  edges : list (list Edge);
  visited : gmap ptr NodeId
}.

Section Graph.
Context `{R : Resolving}.

Record Scope := { folders : list string; resolver : Resolver }.

Definition scope_new (r : Resolver) : Scope := {| folders := []; resolver := r |}.
Definition with_folders (r : Resolver) (f : list string) : Scope :=
  {| folders := f; resolver := r |}.

Definition track_folder (heap : list Value) (s : Scope)
    (object : list (string * ptr)) : Scope :=
  match id_of_object heap object with
  | Some i => {| folders := folders s ++ [i]; resolver := resolver s |}
  | None => s
  end.

Definition join_all (location : Url) (fs : list string) : Res Error Url :=
  foldl (fun acc f => acc ≫= fun l => url_join l f) (Ok location) fs.

Definition build_url (s : Scope) (base : Url) (reference : string) : Res Error Url :=
  let fs := folders s in
  location ← (if Nat.ltb 1 (length fs) then join_all base (drop 1 fs) else Ok base);
  url_join location reference.

(** A queue entry: [(Scope, NodeId, EdgeLabel, &Value)]. *)
Abbreviation Item := (Scope * NodeId * EdgeLabel * ptr)%type (only parsing).
Definition item_parent (it : Item) : NodeId := let '(_, p, _, _) := it in p.
Definition item_node (it : Item) : ptr := let '(_, _, _, v) := it in v.

Definition empty : AdjacencyList :=
  {| nodes := [StaticNull]; edges := [[]]; visited := ∅ |}.

(** [AdjacencyList::push] *)
Definition push (al : AdjacencyList) (parent_id : NodeId) (l : EdgeLabel)
    (node : ptr) : Res Error (AdjacencyList * NodeSlot) :=
  let '(al1, slot) :=
    match visited al !! node with
    | Some i => (al, seen i)
    | None =>
        let node_id := length (nodes al) in
        ({| nodes := nodes al ++ [At node];
            edges := edges al ++ [[]];
            visited := <[node := node_id]> (visited al) |}, new_slot node_id)
    end in
  es ← index (edges al1) parent_id;
  Ok ({| nodes := nodes al1;
         edges := <[parent_id := es ++ [{| label := l; target := id slot |}]]> (edges al1);
         visited := visited al1 |}, slot).

(** The body of the loop over the members of an object: one member. *)
Definition expand_member (heap : list Value) (resolvers : gmap string Resolver)
    (scope : Scope) (slot_id : NodeId) (key : string) (value : ptr)
    (queue : list Item) : Res Error (list Item) :=
  if String.eqb key "$ref" then
    match deref heap value with
    | String reference =>
        r ← reference_try_from reference;
        match r with
        | Absolute location =>
            match resolvers !! url_as_str location with
            | Some res =>
                fr ← resolve res reference;
                let '(fs, resolved) := fr in
                Ok (queue ++ [(with_folders res fs, slot_id, Key key, resolved)])
            | None =>
                fr ← resolve (resolver scope) reference;
                let '(_, resolved) := fr in
                Ok (queue ++ [(scope, slot_id, Key key, resolved)])
            end
        | Relative location =>
            res ← (let res := resolver scope in
                   if is_local location then Ok res
                   else
                     location' ← build_url scope (resolver_scope res) location;
                     if contains res (url_as_str location') then Ok res
                     else
                       match resolvers !! url_as_str location' with
                       | Some r' => Ok r'
                       | None => Panic "Unknown reference"
                       end);
            fr ← resolve res location;
            let '(fs, resolved) := fr in
            Ok (queue ++ [(with_folders res fs, slot_id, Key key, resolved)])
        end
    | _ => Ok queue
    end
  else Ok (queue ++ [(scope, slot_id, Key key, value)]).

Fixpoint expand_members (heap : list Value) (resolvers : gmap string Resolver)
    (scope : Scope) (slot_id : NodeId) (members : list (string * ptr))
    (queue : list Item) : Res Error (list Item) :=
  match members with
  | [] => Ok queue
  | (key, value) :: rest =>
      q ← expand_member heap resolvers scope slot_id key value queue;
      expand_members heap resolvers scope slot_id rest q
  end.

(** The expansion of a node seen for the first time. *)
Definition expand (heap : list Value) (resolvers : gmap string Resolver)
    (scope : Scope) (slot_id : NodeId) (node : ptr) (queue : list Item)
    : Res Error (list Item) :=
  match deref heap node with
  | Object object =>
      expand_members heap resolvers (track_folder heap scope object) slot_id object queue
  | Array items =>
      Ok (queue ++ imap (fun idx item => (scope, slot_id, Index idx, item)) items)
  | _ => Ok queue
  end.

(** The [while let Some(..) = queue.pop_front()] loop, with fuel; [None]
    means the fuel ran out (the fuel given by [new] always suffices, see
    [new_total]). *)
Fixpoint bfs (heap : list Value) (resolvers : gmap string Resolver)
    (fuel : nat) (al : AdjacencyList) (queue : list Item)
    : option (Res Error AdjacencyList) :=
  match fuel with
  | O => None
  | S fuel' =>
      match queue with
      | [] => Some (Ok al)
      | (scope, parent_id, l, node) :: rest =>
          match push al parent_id l node with
          | Ok (al', slot) =>
              if is_new slot then
                match expand heap resolvers scope (id slot) node rest with
                | Ok q => bfs heap resolvers fuel' al' q
                | Err e => Some (Err e)
                | Panic m => Some (Panic m)
                end
              else bfs heap resolvers fuel' al' rest
          | Err e => Some (Err e)
          | Panic m => Some (Panic m)
          end
      end
  end.

(** Number of children a value can enqueue when it is expanded. *)
Definition n_children (v : Value) : nat :=
  match v with
  | Object m => length m
  | Array a => length a
  | _ => 0
  end.

(** The values not yet visited, weighted by their number of children. *)
Definition pending_weight (heap : list Value) (vis : gmap ptr NodeId) (a : ptr) : nat :=
  match vis !! a with
  | Some _ => 0
  | None => n_children (deref heap a)
  end.

Definition pending (heap : list Value) (vis : gmap ptr NodeId) : nat :=
  list_sum (map (pending_weight heap vis) (seq 0 (length heap))).

Definition traversal_fuel (heap : list Value) : nat := 2 + pending heap ∅.

(** [AdjacencyList::new] *)
Definition new (heap : list Value) (schema : ptr) (root : Resolver)
    (resolvers : gmap string Resolver) : option (Res Error AdjacencyList) :=
  bfs heap resolvers (traversal_fuel heap) empty
    [(scope_new root, 0, Index 0, schema)].

(** [AdjacencyList::range_of] *)
Definition range_of (al : AdjacencyList) (target_id : nat) : Res Error Range :=
  es ← index (edges al) target_id;
  let bounds :=
    match es with
    | [] => None
    | [e] => Some (e, e)
    | s :: rest => Some (s, default s (last rest))
    end in
  match bounds with
  | None => Ok {| start := 0; end_ := 0 |}
  | Some (s, e) => Ok {| start := target s; end_ := target e + 1 |}
  end.

End Graph.

(** ** Invariants of the traversal *)

Section Invariants.
Context `{R : Resolving}.
Abbreviation Item := (Scope * NodeId * EdgeLabel * ptr)%type (only parsing).

(** Expanding a node only appends items whose parent is the new node. *)
Definition appends (sid : NodeId) (bound : nat) (q q' : list Item) : Prop :=
  exists nw, q' = q ++ nw /\ Forall (fun it => item_parent it = sid) nw /\
             length nw <= bound.

(** Number of edges, over all parents, that point to [x]. *)
Definition indeg_of (E : list (list Edge)) (x : NodeId) : nat :=
  length (filter (fun e => target e = x) (concat E)).

Definition indeg (al : AdjacencyList) (x : NodeId) : nat := indeg_of (edges al) x.

(** The parents of the queue come in blocks: each one either repeats
    right away or never comes back. *)
Fixpoint grouped (l : list NodeId) : Prop :=
  match l with
  | [] => True
  | x :: l' => (head l' = Some x \/ x ∉ l') /\ grouped l'
  end.

Record inv (al : AdjacencyList) (q : list Item) : Prop := {
  inv_shape : exists ps, nodes al = StaticNull :: (At <$> ps);
  inv_len : length (edges al) = length (nodes al);
  inv_visited : forall p i, visited al !! p = Some i <-> nodes al !! i = Some (At p);
  inv_targets : forall j es e, edges al !! j = Some es -> e ∈ es ->
    1 <= target e < length (nodes al);
  inv_indeg : forall i, 1 <= i < length (nodes al) -> 1 <= indeg al i;
  inv_parents : Forall (fun it => item_parent it < length (nodes al)) q;
  inv_grouped : grouped (map item_parent q);
  inv_front : forall p es, edges al !! p = Some es -> es <> [] ->
    p ∈ map item_parent q -> exists it rest, q = it :: rest /\ item_parent it = p;
  inv_last : forall p es, edges al !! p = Some es -> es <> [] ->
    p ∈ map item_parent q -> exists e, last es = Some e /\
      (target e = length (nodes al) - 1 \/ 2 <= indeg al (target e));
  inv_consec : forall p es, edges al !! p = Some es ->
    Forall (fun e => indeg al (target e) = 1) es ->
    exists s, map target es = seq s (length es)
}.

(** Nodes and every edge list only grow. *)
Definition grows (al al' : AdjacencyList) : Prop :=
  nodes al `prefix_of` nodes al' /\
  forall j es, edges al !! j = Some es ->
    exists es', edges al' !! j = Some es' /\ es `prefix_of` es'.

Definition item_label (it : Item) : EdgeLabel := let '(_, _, l, _) := it in l.

(** The parents of the queue never decrease. *)
Fixpoint parents_sorted (queue : list Item) : Prop :=
  match queue with
  | [] => True
  | it :: rest => Forall (fun it' => item_parent it <= item_parent it') rest /\
                  parents_sorted rest
  end.

(** The edges [es] of node [p] lead to first-time children: their
    targets are distinct, and no edge of a node before [p] leads to one
    of them. *)
Definition first_time (al : AdjacencyList) (p : NodeId) (es : list Edge) : Prop :=
  NoDup (map target es) /\
  forall j es' e' e, j < p -> edges al !! j = Some es' -> e' ∈ es' -> e ∈ es ->
    target e' <> target e.

(** The order in which the traversal creates nodes: parents are expanded
    in increasing order, every node has an inbound edge from a parent no
    later than the queue, and first-time children are consecutive, the
    last one being the newest node while their parent is still queued. *)
Record order_inv (al : AdjacencyList) (queue : list Item) : Prop := {
  oi_sorted : parents_sorted queue;
  oi_started : forall p es, edges al !! p = Some es -> es <> [] ->
    Forall (fun it => p <= item_parent it) queue;
  oi_created : forall i, 1 <= i < length (nodes al) ->
    exists p es e, edges al !! p = Some es /\ e ∈ es /\ target e = i /\
      Forall (fun it => p <= item_parent it) queue;
  oi_fresh : forall p es, edges al !! p = Some es -> first_time al p es ->
    exists s, map target es = seq s (length es) /\
      (es <> [] -> p ∈ map item_parent queue -> s + length es = length (nodes al))
}.

End Invariants.

(** ** The spec's reading of [Scope::build_url] *)

Section UrlSpec.
Context `{R : Resolving}.

(** Join the segments one after the other, in push order. *)
Fixpoint join_segments (location : Url) (segments : list string) : Res Error Url :=
  match segments with
  | [] => Ok location
  | f :: fs => l ← url_join location f; join_segments l fs
  end.

(** The base joined with every segment pushed after the first, then with
    the reference. *)
Definition build_url_spec (s : Scope) (base : Url) (reference : string) : Res Error Url :=
  location ← join_segments base (tail (folders s));
  url_join location reference.

End UrlSpec.

(** ** Range graphs *)

Inductive ValueType :=
| VArray | VBoolean | VInteger | VNull | VNumber | VObject | VString.

(** Modelled from the spec: the keyword constructors of the vocabularies
    module (absent from src/).  Each [X::build] is a pure constructor taking
    the arguments graph.rs passes to it. *)
Inductive Keyword :=
| Maximum (limit : N)
| MaxLength (limit : N)
| MinProperties (limit : N)
| Type_ (t : ValueType)
| Properties (edges : Range)
| Items
| AllOf (edges : Range)
| Ref (nodes : Range).

Record RangedEdge := { re_label : EdgeLabel; re_nodes : Range }.

Record RangeGraph := {
  rg_nodes : list (option Keyword);
  rg_edges : list (option RangedEdge)
}.

Record CompressedRangeGraph := {
  c_nodes : list Keyword;
  c_edges : list RangedEdge
}.

(** [Value::as_u64] and [Value::as_str]. *)
Definition as_u64 (v : Value) : option N :=
  match v with Num (PosInt n) => Some n | _ => None end.

Definition as_str (v : Value) : option string :=
  match v with String s => Some s | _ => None end.

Section RangeGraphs.
Context `{R : Resolving}.

(** [self.nodes[id] = Some(keyword)] *)
Definition set_node (g : RangeGraph) (i : nat) (kw : Keyword) : Res Error RangeGraph :=
  if decide (i < length (rg_nodes g)) then
    Ok {| rg_nodes := <[i := Some kw]> (rg_nodes g); rg_edges := rg_edges g |}
  else Panic "index out of bounds".

(** [self.edges[id] = Some(RangedEdge::new(label, nodes))] *)
Definition set_edge (g : RangeGraph) (i : nat) (l : EdgeLabel) (r : Range)
    : Res Error RangeGraph :=
  if decide (i < length (rg_edges g)) then
    Ok {| rg_nodes := rg_nodes g;
          rg_edges := <[i := Some {| re_label := l; re_nodes := r |}]> (rg_edges g) |}
  else Panic "index out of bounds".

Fixpoint set_many_edges (g : RangeGraph) (es : list Edge) (input : AdjacencyList)
    : Res Error RangeGraph :=
  match es with
  | [] => Ok g
  | e :: rest =>
      r ← range_of input (target e);
      g1 ← set_edge g (target e) (label e) r;
      set_many_edges g1 rest input
  end.

Definition value_type (name : string) : Res Error ValueType :=
  if String.eqb name "array" then Ok VArray
  else if String.eqb name "boolean" then Ok VBoolean
  else if String.eqb name "integer" then Ok VInteger
  else if String.eqb name "null" then Ok VNull
  else if String.eqb name "number" then Ok VNumber
  else if String.eqb name "object" then Ok VObject
  else if String.eqb name "string" then Ok VString
  else Panic "invalid type".

(** [input.nodes[target_id]], dereferenced. *)
Definition node_value (heap : list Value) (input : AdjacencyList) (i : nat) : Res Error Value :=
  r ← index (nodes input) i;
  match r with
  | StaticNull => Ok Null
  | At p => Ok (deref heap p)
  end.

(** The body of [for edge in node_edges] in the non-root case. *)
Definition keyword_edge (heap : list Value) (input : AdjacencyList) (g : RangeGraph)
    (e : Edge) : Res Error RangeGraph :=
  let target_id := target e in
  value ← node_value heap input target_id;
  match as_key (label e) with
  | Some k =>
      if String.eqb k "maximum" then
        n ← unwrap (as_u64 value); set_node g target_id (Maximum n)
      else if String.eqb k "maxLength" then
        n ← unwrap (as_u64 value); set_node g target_id (MaxLength n)
      else if String.eqb k "minProperties" then
        n ← unwrap (as_u64 value); set_node g target_id (MinProperties n)
      else if String.eqb k "type" then
        name ← unwrap (as_str value);
        t ← value_type name;
        set_node g target_id (Type_ t)
      else if String.eqb k "properties" then
        r ← range_of input target_id;
        g1 ← set_node g target_id (Properties r);
        es ← index (edges input) target_id;
        set_many_edges g1 es input
      else if String.eqb k "items" then
        set_node g target_id Items
      else if String.eqb k "allOf" then
        r ← range_of input target_id;
        g1 ← set_node g target_id (AllOf r);
        es ← index (edges input) target_id;
        set_many_edges g1 es input
      else if String.eqb k "$ref" then
        r ← range_of input target_id;
        set_node g target_id (Ref r)
      else Ok g
  | None => Ok g
  end.

Fixpoint keyword_edges (heap : list Value) (input : AdjacencyList) (g : RangeGraph)
    (es : list Edge) : Res Error RangeGraph :=
  match es with
  | [] => Ok g
  | e :: rest => g1 ← keyword_edge heap input g e; keyword_edges heap input g1 rest
  end.

(** [for edge in node_edges { queue.push_back((edge.target, &input.edges[..])) }] *)
Fixpoint push_targets (input : AdjacencyList) (es : list Edge)
    (queue : list (NodeId * list Edge)) : Res Error (list (NodeId * list Edge)) :=
  match es with
  | [] => Ok queue
  | e :: rest =>
      tes ← index (edges input) (target e);
      push_targets input rest (queue ++ [(target e, tes)])
  end.

(** The loop of [RangeGraph::try_from], with fuel ([None] when it runs out). *)
Fixpoint derive_loop (heap : list Value) (input : AdjacencyList) (fuel : nat)
    (g : RangeGraph) (vis : list bool) (queue : list (NodeId * list Edge))
    : option (Res Error RangeGraph) :=
  match fuel with
  | O => None
  | S fuel' =>
      match queue with
      | [] => Some (Ok g)
      | (node_id, node_edges) :: rest =>
          match vis !! node_id with
          | None => Some (Panic "index out of bounds")
          | Some true => derive_loop heap input fuel' g vis rest
          | Some false =>
              let vis' := <[node_id := true]> vis in
              match push_targets input node_edges rest with
              | Ok q =>
                  if Nat.eqb node_id 0 then derive_loop heap input fuel' g vis' q
                  else match keyword_edges heap input g node_edges with
                       | Ok g' => derive_loop heap input fuel' g' vis' q
                       | Err e => Some (Err e)
                       | Panic m => Some (Panic m)
                       end
              | Err e => Some (Err e)
              | Panic m => Some (Panic m)
              end
          end
      end
  end.

(** [RangeGraph::try_from] *)
Definition try_from (heap : list Value) (input : AdjacencyList)
    : option (Res Error RangeGraph) :=
  let g := {| rg_nodes := repeat None (length (nodes input));
              rg_edges := repeat None (length (edges input)) |} in
  match index (edges input) 0 with
  | Ok es0 =>
      derive_loop heap input (2 + length (concat (edges input))) g
        (repeat false (length (nodes input))) [(0, es0)]
  | Err e => Some (Err e)
  | Panic m => Some (Panic m)
  end.

(** [RangeGraph::compress]: its body is [todo!()]. *)
Definition compress (g : RangeGraph) : Res Error CompressedRangeGraph :=
  Panic "not yet implemented".

(** [build] *)
Definition build (heap : list Value) (schema : ptr) (root : Resolver)
    (resolvers : gmap string Resolver) : option (Res Error CompressedRangeGraph) :=
  match new heap schema root resolvers with
  | Some (Ok al) =>
      match try_from heap al with
      | Some (Ok g) => Some (compress g)
      | Some (Err e) => Some (Err e)
      | Some (Panic m) => Some (Panic m)
      | None => None
      end
  | Some (Err e) => Some (Err e)
  | Some (Panic m) => Some (Panic m)
  | None => None
  end.

End RangeGraphs.

(** ** What the derivation pass keeps *)

Section DerivationInvariants.
Context `{R : Resolving}.

(** Some edge of [input], labelled with the key [k], leads to node [i]. *)
Definition labelled (input : AdjacencyList) (i : nat) (k : string) : Prop :=
  exists j es e, edges input !! j = Some es /\ e ∈ es /\ target e = i /\ label e = Key k.

(** A keyword at slot [i] is the one its label names, built from the value
    or the range of node [i]. *)
Definition keyword_sound (heap : list Value) (input : AdjacencyList) (i : nat)
    (kw : Keyword) : Prop :=
  match kw with
  | Maximum n => labelled input i "maximum" /\ node_value heap input i = Ok (Num (PosInt n))
  | MaxLength n => labelled input i "maxLength" /\ node_value heap input i = Ok (Num (PosInt n))
  | MinProperties n =>
      labelled input i "minProperties" /\ node_value heap input i = Ok (Num (PosInt n))
  | Type_ t => labelled input i "type" /\
      exists name, node_value heap input i = Ok (String name) /\ value_type name = Ok t
  | Properties r => labelled input i "properties" /\ range_of input i = Ok r
  | Items => labelled input i "items"
  | AllOf r => labelled input i "allOf" /\ range_of input i = Ok r
  | Ref r => labelled input i "$ref" /\ range_of input i = Ok r
  end.

(** A ranged edge at slot [i] copies the label of an edge to node [i] and
    holds the range of node [i]. *)
Definition ranged_edge_sound (input : AdjacencyList) (i : nat) (re : RangedEdge) : Prop :=
  (exists j es e, edges input !! j = Some es /\ e ∈ es /\ target e = i /\
                  label e = re_label re) /\
  range_of input i = Ok (re_nodes re).

Record graph_sound (heap : list Value) (input : AdjacencyList) (g : RangeGraph) : Prop := {
  gs_nodes_len : length (rg_nodes g) = length (nodes input);
  gs_edges_len : length (rg_edges g) = length (edges input);
  gs_nodes : forall i kw, rg_nodes g !! i = Some (Some kw) -> keyword_sound heap input i kw;
  gs_edges : forall i re, rg_edges g !! i = Some (Some re) -> ranged_edge_sound input i re
}.

(** Each queue entry carries the edge list of its node. *)
Definition entries_ok (input : AdjacencyList) (queue : list (NodeId * list Edge)) : Prop :=
  Forall (fun entry => edges input !! fst entry = Some (snd entry)) queue.

(** The edges a node not yet visited will enqueue. *)
Definition derive_weight (input : AdjacencyList) (vis : list bool) (i : nat) : nat :=
  match vis !! i with
  | Some false => length (default [] (edges input !! i))
  | _ => 0
  end.

Definition derive_potential (input : AdjacencyList) (vis : list bool)
    (queue : list (NodeId * list Edge)) : nat :=
  length queue + list_sum (map (derive_weight input vis) (seq 0 (length vis))).

(** Node [m] is reached from node [n] by following edges. *)
Inductive reaches (input : AdjacencyList) (n : nat) : nat -> Prop :=
| reaches_refl : reaches input n n
| reaches_step m es e :
    reaches input n m -> edges input !! m = Some es -> e ∈ es -> reaches input n (target e).

(** Every node but the sentinel has an inbound edge from a node with a
    smaller id. *)
Definition earlier_parent (al : AdjacencyList) : Prop :=
  forall i, 1 <= i < length (nodes al) ->
    exists p es e, p < i /\ edges al !! p = Some es /\ e ∈ es /\ target e = i.

(** An edge labelled with a recognised keyword whose value has the wrong
    shape: not a u64 under [maximum], [maxLength] or [minProperties]; not
    a string, or a string naming no type, under [type]. *)
Definition wrongly_shaped (heap : list Value) (input : AdjacencyList) (e : Edge) : Prop :=
  (label e ∈ [Key "maximum"; Key "maxLength"; Key "minProperties"] /\
   forall v, node_value heap input (target e) = Ok v -> as_u64 v = None) \/
  (label e = Key "type" /\
   forall v, node_value heap input (target e) = Ok v ->
     as_str v = None \/
     exists name, as_str v = Some name /\
       name ∉ ["array"; "boolean"; "integer"; "null"; "number"; "object"; "string"]).

(** A node, other than the sentinel, with such an edge. *)
Definition bad_node (heap : list Value) (input : AdjacencyList) (n : nat) : Prop :=
  n <> 0 /\ exists es e, edges input !! n = Some es /\ e ∈ es /\ wrongly_shaped heap input e.

End DerivationInvariants.


(** ** An instance of the collaborators, for concrete runs *)

(** Modelled from the spec: the Location Resolver of resolving.rs (absent
    from src/), restricted to what the examples need.  A resolver is bound
    to one document (its base location and root value); it resolves the
    fragment of a reference as a JSON pointer over object keys.  A
    reference starting with "http" is absolute, and joining a relative
    reference replaces the last path segment of the base. *)
Module LocalResolving.

Record Doc := { base : string; root : ptr; heap : list Value }.

Fixpoint split_on (c : ascii) (s : string) : list string :=
  match s with
  | EmptyString => [EmptyString]
  | String.String a s' =>
      if Ascii.eqb a c then EmptyString :: split_on c s'
      else match split_on c s' with
           | w :: ws => String.String a w :: ws
           | [] => [String.String a EmptyString]
           end
  end.

(** The part of a reference after its first '#', if any. *)
Fixpoint fragment (s : string) : option string :=
  match s with
  | EmptyString => None
  | String.String a s' => if Ascii.eqb a "#" then Some s' else fragment s'
  end.

(** The part of a reference before its first '#'. *)
Fixpoint document_part (s : string) : string :=
  match s with
  | EmptyString => EmptyString
  | String.String a s' =>
      if Ascii.eqb a "#" then EmptyString else String.String a (document_part s')
  end.

Fixpoint member (k : string) (m : list (string * ptr)) : option ptr :=
  match m with
  | [] => None
  | (k', p) :: m' => if String.eqb k k' then Some p else member k m'
  end.

Fixpoint walk (h : list Value) (p : ptr) (segs : list string) : option ptr :=
  match segs with
  | [] => Some p
  | seg :: segs' =>
      match deref h p with
      | Object m => match member seg m with
                    | Some q => walk h q segs'
                    | None => None
                    end
      | _ => None
      end
  end.

Definition resolve_in (d : Doc) (reference : string) : Res string (list string * ptr) :=
  let segs := match fragment reference with
              | Some f => drop 1 (split_on "/" f)
              | None => []
              end in
  match walk (heap d) (root d) segs with
  | Some p => Ok ([], p)
  | None => Err "location not found"
  end.

(** Everything up to and including the last '/'. *)
Definition directory (s : string) : string :=
  let parts := split_on "/" s in
  String.append (String.concat "/" (take (length parts - 1) parts)) "/".

Definition join (b r : string) : Res string string :=
  if String.prefix "http" r then Ok r else Ok (String.append (directory b) r).

Definition try_reference (s : string) : Res string (Reference string) :=
  if String.prefix "http" s then Ok (Absolute s) else Ok (Relative s).

Definition id_of (h : list Value) (m : list (string * ptr)) : option string :=
  match member "$id" m with
  | Some p => match deref h p with String s => Some s | _ => None end
  | None => None
  end.

#[export] Instance local_resolving : Resolving := {|
  Url := string;
  Error := string;
  Resolver := Doc;
  url_as_str := fun u => u;
  url_join := join;
  resolve := resolve_in;
  contains := fun d u => String.eqb (base d) (document_part u);
  resolver_scope := base;
  reference_try_from := try_reference;
  is_local := String.prefix "#";
  id_of_object := id_of
|}.

End LocalResolving.

(** ** Example documents

    Each document lives in its own arena; the comment shows the JSON text. *)
Module Examples.
Import LocalResolving.

Definition root_base : string := "http://example.com/root.json".
Definition other_base : string := "http://example.com/other.json".

Definition doc (h : list Value) : Doc := {| base := root_base; root := 0; heap := h |}.

Definition compile (h : list Value) : option (Res string AdjacencyList) :=
  new h 0 (doc h) ∅.

(** The adjacency list of a document whose compilation succeeds. *)
Definition result (h : list Value) : AdjacencyList :=
  match compile h with Some (Ok al) => al | _ => empty end.

(** [{"allOf": [X, X]}] where both items are the same parsed value [X = {}]. *)
Definition shared_heap : list Value :=
  [Object [("allOf", 1)]; Array [2; 2]; Object []].

(** [{"$ref": "#"}]: a reference to the document itself. *)
Definition cycle_heap : list Value :=
  [Object [("$ref", 1)]; String "#"].

(** [{"$ref": "#/a", "a": {}}]: the root refers to its own member. *)
Definition ref_sibling_heap : list Value :=
  [Object [("$ref", 1); ("a", 2)]; String "#/a"; Object []].

(** [{"a": {}, "b": {}, "c": {"$ref": "#/a"}}]: a later node refers to a
    child of the root. *)
Definition later_ref_heap : list Value :=
  [Object [("a", 1); ("b", 2); ("c", 3)]; Object []; Object []; Object [("$ref", 4)];
   String "#/a"].

(** [{"a": {}, "b": {}}] *)
Definition siblings_heap : list Value :=
  [Object [("a", 1); ("b", 2)]; Object []; Object []].

(** [{"$ref": "http://example.com/other.json"}], with the registered
    document [{"type": "string"}] at [other_base]. *)
Definition cross_heap : list Value :=
  [Object [("$ref", 1)]; String other_base; Object [("type", 3)]; String "string"].

Definition other_doc : Doc := {| base := other_base; root := 2; heap := cross_heap |}.

Definition cross_registry : gmap string Doc := {[ other_base := other_doc ]}.

Definition cross_result : AdjacencyList :=
  match new cross_heap 0 (doc cross_heap) cross_registry with
  | Some (Ok al) => al
  | _ => empty
  end.

(** [{"$ref": "other.json"}] with an empty registry. *)
Definition unknown_heap : list Value :=
  [Object [("$ref", 1)]; String "other.json"].

(** [{"$ref": 1}] *)
Definition non_string_ref_heap : list Value :=
  [Object [("$ref", 1)]; Num (PosInt 1)].

(** [{"maximum": "x"}] *)
Definition bad_maximum_heap : list Value :=
  [Object [("maximum", 1)]; String "x"].

Definition bad_maximum_list : AdjacencyList :=
  {| nodes := [StaticNull; At 0; At 1];
     edges := [[{| label := Index 0; target := 1 |}];
               [{| label := Key "maximum"; target := 2 |}]; []];
     visited := {[0 := 1; 1 := 2]} |}.

(** [{"maximum": 5}] *)
Definition maximum_heap : list Value :=
  [Object [("maximum", 1)]; Num (PosInt 5)].

(** [{"properties": {"a": {"maximum": 5}}}] *)
Definition properties_heap : list Value :=
  [Object [("properties", 1)]; Object [("a", 2)]; Object [("maximum", 3)]; Num (PosInt 5)].

(** The range graph derived from a document whose derivation succeeds. *)
Definition graph (h : list Value) : RangeGraph :=
  match try_from h (result h) with
  | Some (Ok g) => g
  | _ => {| rg_nodes := []; rg_edges := [] |}
  end.

End Examples.

(** ** Basic facts *)

Lemma bind_ok {E A B} (a : A) (f : A -> Res E B) : (Ok a ≫= f) = f a.
Proof. reflexivity. Qed.

Lemma bind_ok_inv {E A B} (m : Res E A) (f : A -> Res E B) (b : B) :
  (m ≫= f) = Ok b -> exists a, m = Ok a /\ f a = Ok b.
Proof. destruct m; simpl; intros H; [eauto | discriminate | discriminate]. Qed.

Lemma foldl_bind_err {E A} (g : A -> string -> Res E A) (e : E) (fs : list string) :
  foldl (fun acc f => acc ≫= fun l => g l f) (Err e) fs = Err e.
Proof. induction fs; simpl; auto. Qed.

Lemma foldl_bind_panic {E A} (g : A -> string -> Res E A) (m : string) (fs : list string) :
  foldl (fun acc f => acc ≫= fun l => g l f) (Panic m) fs = Panic m.
Proof. induction fs; simpl; auto. Qed.

Section Facts.
Context `{R : Resolving}.
Abbreviation Item := (Scope * NodeId * EdgeLabel * ptr)%type (only parsing).
Implicit Types (heap : list Value) (al : AdjacencyList) (q : list Item).

(** What [push] does, case by case. *)
Lemma push_spec al parent l node al' slot :
  parent < length (edges al) ->
  push al parent l node = Ok (al', slot) ->
  exists es,
    edges al !! parent = Some es /\
    ((exists i, visited al !! node = Some i /\ slot = seen i /\
       al' = {| nodes := nodes al;
                edges := <[parent := es ++ [{| label := l; target := i |}]]> (edges al);
                visited := visited al |}) \/
     (visited al !! node = None /\ slot = new_slot (length (nodes al)) /\
       al' = {| nodes := nodes al ++ [At node];
                edges := <[parent := es ++ [{| label := l; target := length (nodes al) |}]]>
                           (edges al ++ [[]]);
                visited := <[node := length (nodes al)]> (visited al) |})).
Proof.
  intros Hp. unfold push. destruct (visited al !! node) as [i|] eqn:Hv; simpl; unfold index.
  - destruct (edges al !! parent) as [es|] eqn:He; simpl; [|discriminate].
    intros H; inversion H; subst. exists es. split; [done|]. left; eauto.
  - rewrite lookup_app_l by done.
    destruct (edges al !! parent) as [es|] eqn:He; simpl; [|discriminate].
    intros H; inversion H; subst. exists es. split; [done|]. right; eauto.
Qed.

Lemma push_visited al parent l node al' slot :
  push al parent l node = Ok (al', slot) ->
  (exists i, visited al !! node = Some i /\ slot = seen i /\ visited al' = visited al) \/
  (visited al !! node = None /\ slot = new_slot (length (nodes al)) /\
   visited al' = <[node := length (nodes al)]> (visited al)).
Proof.
  unfold push. destruct (visited al !! node) as [i|] eqn:Hv; simpl; unfold index.
  - destruct (edges al !! parent); simpl; [|intros ?; discriminate].
    intros H; inversion H; subst. left; eauto.
  - destruct ((edges al ++ [[]]) !! parent); simpl; [|intros ?; discriminate].
    intros H; inversion H; subst. right; eauto.
Qed.


Lemma appends_refl sid b q : appends sid b q q.
Proof. exists []. rewrite app_nil_r. split; [done|]. split; [constructor|simpl; lia]. Qed.

Lemma expand_member_appends heap resolvers scope sid key value q q' :
  expand_member heap resolvers scope sid key value q = Ok q' ->
  appends sid 1 q q'.
Proof.
  unfold expand_member, appends.
  destruct (String.eqb key "$ref").
  2:{ intros H; inversion H; subst. exists [(scope, sid, Key key, value)].
      split; [done|]. split; [|simpl; lia]. repeat constructor. }
  destruct (deref heap value) as [| | |reference| |]; intros H;
    try (inversion H; subst; apply appends_refl).
  apply bind_ok_inv in H as [r [_ H]].
  destruct r as [location|location].
  - destruct (resolvers !! url_as_str location) as [res|].
    + apply bind_ok_inv in H as [[fs resolved] [_ H]]. inversion H; subst.
      exists [(with_folders res fs, sid, Key key, resolved)].
      split; [done|]. split; [repeat constructor|simpl; lia].
    + apply bind_ok_inv in H as [[fs resolved] [_ H]]. inversion H; subst.
      exists [(scope, sid, Key key, resolved)].
      split; [done|]. split; [repeat constructor|simpl; lia].
  - apply bind_ok_inv in H as [res [_ H]].
    apply bind_ok_inv in H as [[fs resolved] [_ H]]. inversion H; subst.
    exists [(with_folders res fs, sid, Key key, resolved)].
    split; [done|]. split; [repeat constructor|simpl; lia].
Qed.

Lemma appends_trans sid b1 b2 q1 q2 q3 :
  appends sid b1 q1 q2 -> appends sid b2 q2 q3 -> appends sid (b1 + b2) q1 q3.
Proof.
  intros [n1 [-> [F1 L1]]] [n2 [-> [F2 L2]]].
  exists (n1 ++ n2). rewrite app_assoc. split; [done|].
  split; [by apply Forall_app|]. rewrite length_app; lia.
Qed.

Lemma expand_members_appends heap resolvers scope sid members q q' :
  expand_members heap resolvers scope sid members q = Ok q' ->
  appends sid (length members) q q'.
Proof.
  revert q. induction members as [|[key value] rest IH]; simpl; intros q H.
  - inversion H; subst. apply appends_refl.
  - apply bind_ok_inv in H as [q1 [H1 H2]].
    apply expand_member_appends in H1. apply IH in H2.
    exact (appends_trans _ _ _ _ _ _ H1 H2).
Qed.

Lemma expand_appends heap resolvers scope sid node q q' :
  expand heap resolvers scope sid node q = Ok q' ->
  appends sid (n_children (deref heap node)) q q'.
Proof.
  unfold expand. destruct (deref heap node) as [| | | |items|object]; simpl; intros H;
    try (inversion H; subst; apply appends_refl).
  - inversion H; subst. eexists; split; [done|]. split.
    + apply Forall_forall. intros it Hit. apply elem_of_lookup_imap in Hit as (i & x & -> & _).
      reflexivity.
    + rewrite length_imap; lia.
  - by apply expand_members_appends in H.
Qed.

(** ** Termination of the traversal *)

Lemma sum_weight_insert heap (vis : gmap ptr NodeId) p i (l : list ptr) :
  vis !! p = None -> NoDup l ->
  list_sum (map (pending_weight heap (<[p := i]> vis)) l) +
    (if bool_decide (p ∈ l) then n_children (deref heap p) else 0) =
  list_sum (map (pending_weight heap vis) l).
Proof.
  intros Hp. induction l as [|a l IH]; intros Hnd; simpl.
  - done.
  - apply NoDup_cons in Hnd as [Ha Hnd]. specialize (IH Hnd).
    unfold pending_weight at 1 3.
    destruct (decide (a = p)) as [->|Hne].
    + rewrite lookup_insert_eq, Hp. rewrite bool_decide_true by set_solver.
      rewrite bool_decide_false in IH by done. lia.
    + rewrite lookup_insert_ne by congruence.
      rewrite (bool_decide_ext (p ∈ a :: l) (p ∈ l)) by set_solver. lia.
Qed.

Lemma pending_insert heap (vis : gmap ptr NodeId) p i :
  vis !! p = None ->
  pending heap (<[p := i]> vis) + n_children (deref heap p) = pending heap vis.
Proof.
  intros Hp. unfold pending.
  rewrite <- (sum_weight_insert heap vis p i) by (done || apply NoDup_seq).
  destruct (decide (p < length heap)) as [Hlt|Hge].
  - rewrite bool_decide_true by (apply elem_of_seq; lia). done.
  - rewrite bool_decide_false by (rewrite elem_of_seq; lia).
    unfold deref. rewrite lookup_ge_None_2 by lia. simpl. lia.
Qed.

(** Each step pops an item; a new node's children are bounded by its
    weight in [pending], and a visited node is never expanded again. *)
Lemma bfs_total heap resolvers fuel al q :
  length q + pending heap (visited al) < fuel ->
  bfs heap resolvers fuel al q <> None.
Proof.
  revert al q. induction fuel as [|fuel IH]; intros al q Hlt; [lia|].
  simpl. destruct q as [|[[[scope parent_id] l] node] rest]; [done|].
  destruct (push al parent_id l node) as [[al' slot]| |] eqn:Hpush; try done.
  apply push_visited in Hpush as
    [(i & Hv & -> & Hvis) | (Hv & -> & Hvis)]; simpl.
  - apply IH. rewrite Hvis. simpl in Hlt. lia.
  - destruct (expand heap resolvers scope (length (nodes al)) node rest) as [q'| |] eqn:Hexp;
      try done.
    apply expand_appends in Hexp as (nw & -> & _ & Hnw).
    apply IH. rewrite Hvis. pose proof (pending_insert heap (visited al) node
      (length (nodes al)) Hv). rewrite length_app. simpl in Hlt. lia.
Qed.

Lemma new_total heap schema root resolvers :
  new heap schema root resolvers <> None.
Proof. apply bfs_total. unfold traversal_fuel. simpl. lia. Qed.

(** ** Invariant of the traversal *)


Lemma indeg_of_insert (E : list (list Edge)) p es e x :
  E !! p = Some es ->
  indeg_of (<[p := es ++ [e]]> E) x =
    indeg_of E x + (if decide (target e = x) then 1 else 0).
Proof.
  intros Hp. unfold indeg_of.
  assert (p < length E) by (apply lookup_lt_is_Some; eauto).
  pose proof (take_drop_middle E p es Hp) as HE.
  rewrite insert_take_drop by done.
  set (A := take p E) in *. set (B := drop (S p) E) in *. rewrite <- HE.
  rewrite !concat_app, !concat_cons, !filter_app, !length_app.
  destruct (decide (target e = x)).
  - rewrite filter_cons_True by done. simpl. lia.
  - rewrite filter_cons_False by done. simpl. lia.
Qed.

Lemma indeg_of_snoc_nil (E : list (list Edge)) x :
  indeg_of (E ++ [[]]) x = indeg_of E x.
Proof. unfold indeg_of. rewrite concat_app. simpl. by rewrite app_nil_r. Qed.


Lemma grouped_app_fresh (l : list NodeId) n k :
  grouped l -> n ∉ l -> grouped (l ++ replicate k n).
Proof.
  intros Hg Hn. induction l as [|x l IH]; simpl.
  - induction k as [|k IHk]; simpl; [done|]. split; [|done].
    destruct k; simpl; [right; set_solver|left; done].
  - destruct Hg as [Hx Hg]. split; [|apply IH; set_solver].
    assert (x <> n) by set_solver.
    destruct Hx as [Hx|Hx].
    + left. destruct l; simpl in *; [discriminate|done].
    + right. rewrite elem_of_app, elem_of_replicate. intros [?|[? ?]]; [done|congruence].
Qed.

Lemma parents_fresh (nw : list Item) n :
  Forall (fun it => item_parent it = n) nw ->
  map item_parent nw = replicate (length nw) n.
Proof.
  induction 1 as [|it nw Hit _ IH]; simpl; [done|]. by rewrite Hit, IH.
Qed.


Lemma inv_init schema (scope : Scope) :
  inv empty [(scope, 0, Index 0, schema)].
Proof.
  split; simpl.
  - by exists [].
  - done.
  - intros p i. rewrite lookup_empty. split; [discriminate|].
    destruct i as [|[|i]]; simpl; discriminate.
  - intros j es e Hj He. destruct j as [|j]; simpl in Hj; [|discriminate].
    inversion Hj; subst. set_solver.
  - lia.
  - repeat constructor.
  - split; [right; set_solver|done].
  - intros p es Hp Hne. destruct p as [|p]; simpl in Hp; [|discriminate].
    inversion Hp; subst; done.
  - intros p es Hp Hne. destruct p as [|p]; simpl in Hp; [|discriminate].
    inversion Hp; subst; done.
  - intros p es Hp _. destruct p as [|p]; simpl in Hp; [|discriminate].
    inversion Hp; subst. by exists 0.
Qed.

Lemma in_map_parent (q : list Item) p :
  p ∈ map item_parent q -> exists it, it ∈ q /\ item_parent it = p.
Proof.
  induction q as [|it q IH]; simpl; intros H; [set_solver|].
  apply elem_of_cons in H as [->|H].
  - exists it. split; [left|done].
  - destruct (IH H) as (it' & ? & ?). exists it'. split; [right|]; done.
Qed.

(** The popped item is a revisit: only an edge is added. *)
Lemma inv_step_seen al scope p l node rest i es :
  inv al ((scope, p, l, node) :: rest) ->
  visited al !! node = Some i -> edges al !! p = Some es ->
  inv {| nodes := nodes al;
         edges := <[p := es ++ [{| label := l; target := i |}]]> (edges al);
         visited := visited al |} rest.
Proof.
  intros Inv Hv Hp.
  destruct Inv as [[ps Hshape] Hlen Hvis Htg Hdeg Hpar Hgr Hfront Hlast Hcons].
  unfold indeg in *. simpl in *.
  set (e := {| label := l; target := i |}).
  assert (Hi : 1 <= i < length (nodes al)).
  { apply Hvis in Hv. split.
    - destruct i; [rewrite Hshape in Hv; discriminate|lia].
    - apply lookup_lt_is_Some; eauto. }
  assert (Hdeg' : forall x, indeg_of (<[p := es ++ [e]]> (edges al)) x =
            indeg_of (edges al) x + (if decide (i = x) then 1 else 0)).
  { intros x. by rewrite (indeg_of_insert _ _ _ _ _ Hp). }
  assert (Hlk : forall j es', <[p := es ++ [e]]> (edges al) !! j = Some es' ->
            (j = p /\ es' = es ++ [e]) \/ (j <> p /\ edges al !! j = Some es')).
  { intros j es'. rewrite list_lookup_insert.
    destruct (decide (p = j /\ p < length (edges al))) as [[-> _]|Hn].
    - intros H; inversion H; left; auto.
    - intros H. right. split; [|done]. intros ->. apply Hn. split; [done|].
      apply lookup_lt_is_Some; eauto. }
  assert (Hnot : forall p' es', edges al !! p' = Some es' -> es' <> [] ->
            p' ∈ map item_parent rest -> p' = p).
  { intros p' es' H1 H2 H3.
    destruct (Hfront p' es' H1 H2) as (it & rest' & Hq & Hit); [set_solver|].
    inversion Hq; subst. done. }
  destruct Hgr as [Hhead Hgr].
  split; unfold indeg; simpl; fold e.
  - by exists ps.
  - by rewrite length_insert.
  - done.
  - intros j es' e' Hj He'. apply Hlk in Hj as [[-> ->]|[_ Hj]]; [|eauto].
    apply elem_of_app in He' as [He'|He']; [eauto|].
    apply list_elem_of_singleton in He'. subst. simpl. lia.
  - intros x Hx. rewrite Hdeg'. specialize (Hdeg x Hx). lia.
  - by inversion Hpar.
  - done.
  - intros p' es' Hj Hne Hin. apply Hlk in Hj as [[-> ->]|[Hne' Hj]].
    + destruct Hhead as [Hh|Hh]; [|contradiction].
      destruct rest as [|it' rest']; [discriminate|]. simpl in Hh.
      exists it', rest'. by inversion Hh.
    + exfalso. apply Hne'. eauto.
  - intros p' es' Hj Hne Hin. apply Hlk in Hj as [[-> ->]|[Hne' Hj]].
    + exists e. rewrite last_snoc. split; [done|]. right. simpl.
      rewrite Hdeg', decide_True by done. specialize (Hdeg i Hi). lia.
    + exfalso. apply Hne'. eauto.
  - intros p' es' Hj Hall. apply Hlk in Hj as [[-> ->]|[Hne' Hj]].
    + exfalso. apply Forall_app in Hall as [_ Hall]. inversion Hall as [|? ? Hx]; subst.
      simpl in Hx. rewrite Hdeg', decide_True in Hx by done.
      specialize (Hdeg i Hi). lia.
    + apply (Hcons p' es' Hj). rewrite Forall_forall in *. intros e' Hin.
      specialize (Hall e' Hin). rewrite Hdeg' in Hall.
      pose proof (Htg _ _ _ Hj Hin) as Ht. specialize (Hdeg _ Ht).
      destruct (decide _); lia.
Qed.

(** The popped item is a first visit: a node, its empty edge list and an
    edge are added, and its children are enqueued at the back. *)
Lemma inv_step_new al scope p l node rest es nw :
  inv al ((scope, p, l, node) :: rest) ->
  visited al !! node = None -> edges al !! p = Some es ->
  Forall (fun it => item_parent it = length (nodes al)) nw ->
  inv {| nodes := nodes al ++ [At node];
         edges := <[p := es ++ [{| label := l; target := length (nodes al) |}]]>
                    (edges al ++ [[]]);
         visited := <[node := length (nodes al)]> (visited al) |} (rest ++ nw).
Proof.
  intros Inv Hv Hp Hnw.
  destruct Inv as [[ps Hshape] Hlen Hvis Htg Hdeg Hpar Hgr Hfront Hlast Hcons].
  unfold indeg in *. simpl in *.
  set (n := length (nodes al)) in *.
  set (e := {| label := l; target := n |}).
  assert (Hn1 : 1 <= n) by (unfold n; rewrite Hshape; simpl; lia).
  assert (Hpn : p < n) by (inversion Hpar; done).
  assert (Hp' : (edges al ++ [[]]) !! p = Some es) by (rewrite lookup_app_l; [done|lia]).
  assert (Hdeg' : forall x, indeg_of (<[p := es ++ [e]]> (edges al ++ [[]])) x =
            indeg_of (edges al) x + (if decide (n = x) then 1 else 0)).
  { intros x. by rewrite (indeg_of_insert _ _ _ _ _ Hp'), indeg_of_snoc_nil. }
  assert (Hlk : forall j es', <[p := es ++ [e]]> (edges al ++ [[]]) !! j = Some es' ->
            (j = p /\ es' = es ++ [e]) \/ (j <> p /\ j = n /\ es' = []) \/
            (j <> p /\ j < n /\ edges al !! j = Some es')).
  { intros j es'. rewrite list_lookup_insert.
    destruct (decide (p = j /\ p < length (edges al ++ [[]]))) as [[-> _]|Hn].
    - intros H; inversion H; left; auto.
    - intros H. assert (j <> p).
      { intros ->. apply Hn. rewrite length_app; simpl; lia. }
      right. destruct (decide (j < n)).
      + right. rewrite lookup_app_l in H by lia. auto.
      + left. rewrite lookup_app_r in H by lia.
        destruct (j - length (edges al)) eqn:Hj; simpl in H; [|discriminate].
        inversion H; subst. split; [done|]. split; [lia|done]. }
  assert (Hpar_nw : map item_parent nw = replicate (length nw) n) by (by apply parents_fresh).
  assert (Hin_split : forall p', p' ∈ map item_parent (rest ++ nw) -> p' <> n ->
            p' ∈ map item_parent rest).
  { intros p' H Hne. rewrite map_app, elem_of_app in H.
    destruct H as [H|H]; [done|]. exfalso.
    apply in_map_parent in H as (it & Hit & Hpi). rewrite Forall_forall in Hnw.
    specialize (Hnw it Hit). congruence. }
  assert (Hn_rest : n ∉ map item_parent rest).
  { intros H. apply in_map_parent in H as (it & Hit & Hpi).
    inversion Hpar as [|? ? _ Hpar']. rewrite Forall_forall in Hpar'.
    specialize (Hpar' it Hit). lia. }
  assert (Hnot : forall p' es', edges al !! p' = Some es' -> es' <> [] ->
            p' ∈ map item_parent rest -> p' = p).
  { intros p' es' H1 H2 H3.
    destruct (Hfront p' es' H1 H2) as (it & rest' & Hq & Hit); [set_solver|].
    inversion Hq; subst. done. }
  destruct Hgr as [Hhead Hgr].
  split; unfold indeg; simpl; fold e; rewrite ?length_app; simpl.
  - exists (ps ++ [node]). rewrite Hshape, fmap_app. done.
  - rewrite length_insert, length_app. simpl. lia.
  - intros p0 i0. destruct (decide (node = p0)) as [<-|Hne].
    + rewrite lookup_insert_eq. split.
      * intros H; inversion H; subst. rewrite lookup_app_r by lia.
        rewrite Nat.sub_diag. done.
      * intros H. destruct (decide (i0 < n)).
        -- rewrite lookup_app_l in H by lia. apply Hvis in H. congruence.
        -- rewrite lookup_app_r in H by lia. fold n in H.
           destruct (i0 - n) eqn:Hi; simpl in H; [|discriminate]. f_equal. lia.
    + rewrite lookup_insert_ne by done. rewrite Hvis. split.
      * intros H. rewrite lookup_app_l; [done|]. apply lookup_lt_is_Some; eauto.
      * intros H. destruct (decide (i0 < n)).
        -- rewrite lookup_app_l in H by lia. done.
        -- rewrite lookup_app_r in H by lia. fold n in H.
           destruct (i0 - n); simpl in H; [|discriminate]. congruence.
  - intros j es' e' Hj He'.
    apply Hlk in Hj as [[-> ->]|[[_ [-> ->]]|[_ [_ Hj]]]].
    + apply elem_of_app in He' as [He'|He'].
      * specialize (Htg _ _ _ Hp He'). lia.
      * apply list_elem_of_singleton in He'. subst. simpl. lia.
    + set_solver.
    + specialize (Htg _ _ _ Hj He'). lia.
  - intros x Hx. rewrite Hdeg'. destruct (decide (n = x)); [lia|].
    specialize (Hdeg x ltac:(lia)). lia.
  - apply Forall_app. split.
    + inversion Hpar as [|? ? _ Hpar']. eapply Forall_impl; [exact Hpar'|]. simpl; lia.
    + eapply Forall_impl; [exact Hnw|]. simpl; lia.
  - rewrite map_app, Hpar_nw. by apply grouped_app_fresh.
  - intros p' es' Hj Hne Hin.
    apply Hlk in Hj as [[-> ->]|[[_ [-> ->]]|[Hne' [Hlt Hj]]]].
    + apply Hin_split in Hin; [|lia].
      destruct Hhead as [Hh|Hh]; [|contradiction].
      destruct rest as [|it' rest']; [discriminate|]. simpl in Hh.
      exists it', (rest' ++ nw). by inversion Hh.
    + done.
    + exfalso. apply Hne'. apply Hin_split in Hin; [eauto|lia].
  - intros p' es' Hj Hne Hin.
    apply Hlk in Hj as [[-> ->]|[[_ [-> ->]]|[Hne' [Hlt Hj]]]].
    + exists e. rewrite last_snoc. split; [done|]. left. simpl. lia.
    + done.
    + exfalso. apply Hne'. apply Hin_split in Hin; [eauto|lia].
  - intros p' es' Hj Hall.
    apply Hlk in Hj as [[-> ->]|[[_ [-> ->]]|[Hne' [Hlt Hj]]]].
    + destruct (decide (es = [])) as [->|Hes].
      * exists n. done.
      * destruct (Hlast p es Hp Hes ltac:(set_solver)) as (el & Hel & Hcase).
        pose proof (last_Some_elem_of _ _ Hel) as Hel_in.
        pose proof (Htg _ _ _ Hp Hel_in) as Htel.
        apply Forall_app in Hall as [Hall _].
        assert (Hold : Forall (fun e0 => indeg_of (edges al) (target e0) = 1) es).
        { rewrite Forall_forall in *. intros e0 He0. specialize (Hall e0 He0).
          rewrite Hdeg' in Hall. pose proof (Htg _ _ _ Hp He0).
          rewrite decide_False in Hall by lia. lia. }
        assert (target el = n - 1) as Htl.
        { destruct Hcase as [?|Hc]; [done|]. rewrite Forall_forall in Hold.
          specialize (Hold el Hel_in). lia. }
        destruct (Hcons p es Hp Hold) as [s Hs]. exists s.
        apply last_Some in Hel as [es1 ->].
        rewrite map_app in Hs. rewrite length_app in Hs. simpl in Hs.
        replace (length es1 + 1) with (S (length es1)) in Hs by lia.
        rewrite seq_S in Hs. apply app_inj_tail in Hs as [Hs1 Hs2].
        rewrite !map_app, Hs1, !length_app. simpl.
        replace (length es1 + 1 + 1) with (S (S (length es1))) by lia.
        rewrite !seq_S, <- app_assoc. simpl. rewrite <- app_assoc. simpl. rewrite Hs2. repeat f_equal. lia.
    + by exists 0.
    + apply (Hcons p' es' Hj). rewrite Forall_forall in *. intros e' Hin.
      specialize (Hall e' Hin). rewrite Hdeg' in Hall.
      pose proof (Htg _ _ _ Hj Hin). rewrite decide_False in Hall by lia. lia.
Qed.

Lemma bfs_inv heap resolvers fuel al q al' :
  inv al q -> bfs heap resolvers fuel al q = Some (Ok al') -> inv al' [].
Proof.
  revert al q. induction fuel as [|fuel IH]; intros al q Inv H; [discriminate|].
  simpl in H. destruct q as [|[[[scope p] l] node] rest].
  - inversion H; subst. done.
  - assert (Hp : p < length (edges al)).
    { rewrite (inv_len _ _ Inv). pose proof (inv_parents _ _ Inv) as Hpar.
      inversion Hpar; done. }
    destruct (push al p l node) as [[al1 slot]| |] eqn:Hpush; try discriminate.
    apply push_spec in Hpush as (es & Hes & [(i & Hv & -> & ->)|(Hv & -> & ->)]); [| |done].
    + simpl in H. eapply IH; [|exact H]. by eapply (inv_step_seen _ scope).
    + simpl in H.
      destruct (expand heap resolvers scope (length (nodes al)) node rest) as [q'| |] eqn:Hexp;
        try discriminate.
      apply expand_appends in Hexp as (nw & -> & Hnw & _).
      eapply IH; [|exact H]. by eapply (inv_step_new _ scope).
Qed.

Lemma new_inv heap schema root resolvers al :
  new heap schema root resolvers = Some (Ok al) -> inv al [].
Proof. intros H. eapply bfs_inv; [apply inv_init|exact H]. Qed.


Lemma grows_refl al : grows al al.
Proof. split; [done|]. intros j es H. exists es. split; [done|]. done. Qed.

Lemma grows_trans a1 a2 a3 : grows a1 a2 -> grows a2 a3 -> grows a1 a3.
Proof.
  intros [N1 E1] [N2 E2]. split; [by trans (nodes a2)|].
  intros j es H. destruct (E1 j es H) as (es1 & H1 & P1).
  destruct (E2 j es1 H1) as (es2 & H2 & P2). exists es2. split; [done|]. by trans es1.
Qed.

Lemma push_grows al p l node al' slot :
  p < length (edges al) -> push al p l node = Ok (al', slot) -> grows al al'.
Proof.
  intros Hp Hpush. apply push_spec in Hpush as (es & Hes & [(i & _ & -> & ->)|(_ & -> & ->)]);
    [| |done]; split; simpl.
  - done.
  - intros j es' Hj. rewrite list_lookup_insert.
    destruct (decide (p = j /\ p < length (edges al))) as [[-> _]|_].
    + rewrite Hj in Hes. inversion Hes; subst. eexists; split; [done|]. by exists [{| label := l; target := i |}].
    + exists es'. done.
  - by exists [At node].
  - intros j es' Hj. rewrite list_lookup_insert.
    destruct (decide (p = j /\ p < length (edges al ++ [[]]))) as [[-> _]|_].
    + rewrite Hj in Hes. inversion Hes; subst. eexists; split; [done|].
      by exists [{| label := l; target := length (nodes al) |}].
    + exists es'. rewrite lookup_app_l; [done|]. apply lookup_lt_is_Some; eauto.
Qed.


Lemma bfs_grows heap resolvers fuel al q al' :
  inv al q -> bfs heap resolvers fuel al q = Some (Ok al') -> grows al al'.
Proof.
  revert al q. induction fuel as [|fuel IH]; intros al q Inv H; [discriminate|].
  simpl in H. destruct q as [|[[[scope p] l] node] rest].
  - inversion H; subst. apply grows_refl.
  - assert (Hp : p < length (edges al)).
    { rewrite (inv_len _ _ Inv). pose proof (inv_parents _ _ Inv) as Hpar.
      inversion Hpar; done. }
    destruct (push al p l node) as [[al1 slot]| |] eqn:Hpush; try discriminate.
    apply (grows_trans _ al1); [by eapply push_grows|].
    apply push_spec in Hpush as (es & Hes & [(i & Hv & -> & ->)|(Hv & -> & ->)]); [| |done].
    + simpl in H. eapply IH; [|exact H]. by eapply (inv_step_seen _ scope).
    + simpl in H.
      destruct (expand heap resolvers scope (length (nodes al)) node rest) as [q'| |] eqn:Hexp;
        try discriminate.
      apply expand_appends in Hexp as (nw & -> & Hnw & _).
      eapply IH; [|exact H]. by eapply (inv_step_new _ scope).
Qed.

(** Every item of the queue ends up as an edge, from its parent and with
    its label, to the node holding its value. *)
Lemma bfs_item_edge heap resolvers fuel al q al' it :
  inv al q -> it ∈ q -> bfs heap resolvers fuel al q = Some (Ok al') ->
  exists es e, edges al' !! item_parent it = Some es /\ e ∈ es /\
    label e = item_label it /\ nodes al' !! target e = Some (At (item_node it)).
Proof.
  revert al q. induction fuel as [|fuel IH]; intros al q Inv Hit H; [discriminate|].
  simpl in H. destruct q as [|[[[scope p] l] node] rest]; [set_solver|].
  assert (Hp : p < length (edges al)).
  { rewrite (inv_len _ _ Inv). pose proof (inv_parents _ _ Inv) as Hpar.
    inversion Hpar; done. }
  destruct (push al p l node) as [[al1 slot]| |] eqn:Hpush; try discriminate.
  assert (Hedge : exists es e, edges al1 !! p = Some es /\ e ∈ es /\ label e = l /\
            nodes al1 !! target e = Some (At node)).
  { pose proof Hpush as Hp2.
    apply push_spec in Hp2 as (es & Hes & [(i & Hv & -> & ->)|(Hv & -> & ->)]); [| |done];
      simpl; eexists; eexists; (split; [apply list_lookup_insert_eq|]).
    - done.
    - split; [apply elem_of_app; right; by left|]. split; [done|].
      simpl. by apply (inv_visited _ _ Inv).
    - rewrite length_app; simpl; lia.
    - split; [apply elem_of_app; right; by left|]. split; [done|].
      simpl. rewrite lookup_app_r, Nat.sub_diag by lia. done. }
  assert (exists q', inv al1 q' /\ rest `sublist_of` q' /\
            bfs heap resolvers fuel al1 q' = Some (Ok al')) as (q' & Inv1 & Hsub & Hrun).
  { apply push_spec in Hpush as (es & Hes & [(i & Hv & -> & ->)|(Hv & -> & ->)]); [| |done].
    - exists rest. split; [by eapply (inv_step_seen _ scope)|]. split; [done|].
      exact H.
    - simpl in H.
      destruct (expand heap resolvers scope (length (nodes al)) node rest) as [q'| |] eqn:Hexp;
        try discriminate.
      apply expand_appends in Hexp as (nw & -> & Hnw & _).
      exists (rest ++ nw). split; [by eapply (inv_step_new _ scope)|]. split; [|exact H].
      by apply sublist_inserts_r. }
  apply elem_of_cons in Hit as [->|Hit].
  - destruct Hedge as (es & e & Hes & He & Hl & Hn).
    destruct (bfs_grows _ _ _ _ _ _ Inv1 Hrun) as [Gn Ge].
    destruct (Ge _ _ Hes) as (es' & Hes' & Hpre).
    exists es', e. split; [done|]. split; [by eapply elem_of_prefix|].
    split; [done|]. by eapply prefix_lookup_Some.
  - apply (IH al1 q'); [done| |done]. by apply (elem_of_sublist rest q' it).
Qed.

End Facts.


Section Expansion.
Context `{R : Resolving}.
Abbreviation Item := (Scope * NodeId * EdgeLabel * ptr)%type (only parsing).
Implicit Types (heap : list Value) (al : AdjacencyList) (q : list Item).

(** Every node created during a run was expanded once, with some scope,
    and each item of that expansion ends up as one of its edges. *)
Lemma bfs_expanded heap resolvers fuel al q al' i p :
  inv al q -> bfs heap resolvers fuel al q = Some (Ok al') ->
  length (nodes al) <= i -> nodes al' !! i = Some (At p) ->
  exists scope q0 q1, expand heap resolvers scope i p q0 = Ok q1 /\
    forall it, it ∈ q1 -> item_parent it = i ->
      exists es e, edges al' !! i = Some es /\ e ∈ es /\
        label e = item_label it /\ nodes al' !! target e = Some (At (item_node it)).
Proof.
  revert al q. induction fuel as [|fuel IH]; intros al q Inv H Hi Hn; [discriminate|].
  simpl in H. destruct q as [|[[[scope p0] l] node] rest].
  - inversion H; subst. apply lookup_lt_Some in Hn. lia.
  - assert (Hp : p0 < length (edges al)).
    { rewrite (inv_len _ _ Inv). pose proof (inv_parents _ _ Inv) as Hpar.
      inversion Hpar; done. }
    destruct (push al p0 l node) as [[al1 slot]| |] eqn:Hpush; try discriminate.
    apply push_spec in Hpush as (es & Hes & [(j & Hv & -> & ->)|(Hv & -> & ->)]); [| |done].
    + simpl in H. eapply IH; [by eapply (inv_step_seen _ scope)|exact H|done|done].
    + simpl in H.
      destruct (expand heap resolvers scope (length (nodes al)) node rest) as [q'| |] eqn:Hexp;
        try discriminate.
      pose proof Hexp as Hexp'.
      apply expand_appends in Hexp' as (nw & Hq' & Hnw & _). subst q'.
      assert (Inv1 := inv_step_new _ scope _ _ _ _ _ _ Inv Hv Hes Hnw).
      destruct (decide (i = length (nodes al))) as [->|Hne].
      * destruct (bfs_grows _ _ _ _ _ _ Inv1 H) as [Gn _]. simpl in Gn.
        assert (nodes al' !! length (nodes al) = Some (At node)) as Hnode.
        { eapply prefix_lookup_Some; [|exact Gn].
          rewrite lookup_app_r, Nat.sub_diag by lia. done. }
        rewrite Hn in Hnode. inversion Hnode; subst.
        exists scope, rest, (rest ++ nw). split; [done|].
        intros it Hit Hpar. rewrite <- Hpar.
        eapply bfs_item_edge; [exact Inv1|exact Hit|exact H].
      * eapply IH; [exact Inv1|exact H| |done]. simpl. rewrite length_app. simpl. lia.
Qed.

Lemma expand_members_app heap resolvers scope sid pre post q :
  expand_members heap resolvers scope sid (pre ++ post) q =
  (expand_members heap resolvers scope sid pre q ≫=
     expand_members heap resolvers scope sid post).
Proof.
  revert q. induction pre as [|[key value] pre IH]; intros q; simpl; [done|].
  destruct (expand_member heap resolvers scope sid key value q); simpl; auto.
Qed.

(** A member kept in the queue stays there through later members. *)
Lemma expand_members_keeps heap resolvers scope sid members q q' it :
  expand_members heap resolvers scope sid members q = Ok q' -> it ∈ q -> it ∈ q'.
Proof.
  intros H Hit. apply expand_members_appends in H as (nw & -> & _).
  apply elem_of_app. by left.
Qed.

Lemma expand_members_absolute heap resolvers scope sid members q q' v reference loc
    res fs resolved :
  expand_members heap resolvers scope sid members q = Ok q' ->
  ("$ref", v) ∈ members -> deref heap v = String reference ->
  reference_try_from reference = Ok (Absolute loc) ->
  resolvers !! url_as_str loc = Some res -> resolve res reference = Ok (fs, resolved) ->
  (with_folders res fs, sid, Key "$ref", resolved) ∈ q'.
Proof.
  intros H Hm Hv Hr Hres Hfr. revert q H.
  induction members as [|[key value] rest IH]; intros q H; [set_solver|].
  simpl in H. apply bind_ok_inv in H as [q1 [H1 H2]].
  apply elem_of_cons in Hm as [Hm|Hm].
  - inversion Hm; subst. unfold expand_member in H1. simpl in H1.
    rewrite Hv, Hr in H1. simpl in H1. rewrite Hres, Hfr in H1. simpl in H1.
    inversion H1; subst. eapply expand_members_keeps; [exact H2|].
    apply elem_of_app. right. by left.
  - by apply (IH Hm q1).
Qed.

End Expansion.

Section ClaimLemmas.
Context `{R : Resolving}.
Abbreviation Item := (Scope * NodeId * EdgeLabel * ptr)%type (only parsing).
Implicit Types (heap : list Value) (al : AdjacencyList) (q : list Item).

Lemma inv_nodes_unique al q i j p :
  inv al q -> nodes al !! i = Some (At p) -> nodes al !! j = Some (At p) -> i = j.
Proof.
  intros Inv Hi Hj. apply (inv_visited _ _ Inv) in Hi, Hj. congruence.
Qed.

Lemma indeg_of_edge (E : list (list Edge)) x :
  1 <= indeg_of E x -> exists j es e, E !! j = Some es /\ e ∈ es /\ target e = x.
Proof.
  unfold indeg_of. intros H.
  destruct (filter (fun e => target e = x) (concat E)) as [|e0 l] eqn:Hf; simpl in H; [lia|].
  assert (Hin : e0 ∈ filter (fun e => target e = x) (concat E)) by (rewrite Hf; left).
  apply list_elem_of_filter in Hin as [Ht Hin].
  apply list_elem_of_In, in_concat in Hin as (es & Hes & Hin).
  apply list_elem_of_In, list_elem_of_lookup in Hes as [j Hj].
  exists j, es, e0. split; [done|]. split; [by apply list_elem_of_In|done].
Qed.

(** Counting the edges to [k] in a list of consecutive targets. *)
Lemma count_seq_below (es : list Edge) s k :
  map target es = seq s (length es) -> k < s ->
  length (filter (fun e => target e = k) es) = 0.
Proof.
  revert s. induction es as [|e es IH]; intros s H Hk; simpl; [done|].
  simpl in H. injection H as Ht Hr.
  rewrite filter_cons_False by lia. apply (IH (S s)); [done|lia].
Qed.

Lemma count_seq (es : list Edge) s k :
  map target es = seq s (length es) -> s <= k < s + length es ->
  length (filter (fun e => target e = k) es) = 1.
Proof.
  revert s. induction es as [|e es IH]; intros s H Hk; simpl in *; [lia|].
  injection H as Ht Hr.
  destruct (decide (k = s)) as [->|Hne].
  - rewrite filter_cons_True by lia. simpl.
    rewrite (count_seq_below es (S s)); [done|done|lia].
  - rewrite filter_cons_False by lia. apply (IH (S s)); [done|lia].
Qed.

Lemma range_of_consec al p es s :
  edges al !! p = Some es -> map target es = seq s (length es) ->
  range_of al p = Ok (if decide (es = []) then {| start := 0; end_ := 0 |}
                      else {| start := s; end_ := s + length es |}).
Proof.
  intros Hp Hs. unfold range_of, index. rewrite Hp. simpl.
  destruct es as [|e rest]; [done|]. simpl in Hs. injection Hs as Ht Hr.
  rewrite decide_False by done. simpl.
  destruct rest as [|e2 rest'].
  - simpl. rewrite Ht. repeat f_equal; lia.
  - destruct (last (e2 :: rest')) as [x|] eqn:Hl; [|by apply last_None in Hl].
    rewrite last_lookup in Hl.
    assert (Htx : map target (e2 :: rest') !! pred (length (e2 :: rest')) = Some (target x))
      by (rewrite list_lookup_fmap, Hl; done).
    rewrite Hr, lookup_seq in Htx. destruct Htx as [Htx Hlt].
    simpl in *. rewrite Ht, Htx. do 2 f_equal; lia.
Qed.

Lemma join_all_segments (location : Url) (fs : list string) :
  join_all location fs = join_segments location fs.
Proof.
  unfold join_all. revert location. induction fs as [|f fs IH]; intros location; simpl; [done|].
  destruct (url_join location f) as [l|e|m]; simpl.
  - apply IH.
  - apply foldl_bind_err.
  - apply foldl_bind_panic.
Qed.

Lemma no_err_ok {A} (a : A) : no_err (E := Error) (Ok a).
Proof. intros e; discriminate. Qed.

Lemma no_err_panic {A} m : no_err (E := Error) (Panic (A := A) m).
Proof. intros e; discriminate. Qed.

Lemma no_err_bind {A B} (m : Res Error A) (f : A -> Res Error B) :
  no_err m -> (forall a, no_err (f a)) -> no_err (m ≫= f).
Proof. intros Hm Hf e. destruct m as [a|e'|msg]; simpl; [apply Hf|exfalso; apply (Hm e'); done|discriminate]. Qed.

Lemma no_err_index {A} (l : list A) i : no_err (index (E := Error) l i).
Proof. unfold index. destruct (l !! i); [apply no_err_ok|apply no_err_panic]. Qed.

Lemma no_err_unwrap {A} (o : option A) : no_err (unwrap (E := Error) o).
Proof. destruct o; [apply no_err_ok|apply no_err_panic]. Qed.

End ClaimLemmas.

Section DerivationLemmas.
Context `{R : Resolving}.

Create HintDb no_err_db.
#[local] Hint Resolve no_err_ok no_err_panic no_err_index no_err_unwrap : no_err_db.

Ltac no_err_bind_step :=
  repeat (apply no_err_bind; [eauto with no_err_db|intros ?]).

Lemma no_err_range_of al i : no_err (range_of al i).
Proof.
  unfold range_of. apply no_err_bind; [apply no_err_index|].
  intros es. destruct es as [|s [|e rest]]; apply no_err_ok.
Qed.

Lemma no_err_set_node g i kw : no_err (set_node g i kw).
Proof. unfold set_node. case_decide; auto with no_err_db. Qed.

Lemma no_err_set_edge g i l r : no_err (set_edge g i l r).
Proof. unfold set_edge. case_decide; auto with no_err_db. Qed.

#[local] Hint Resolve no_err_range_of no_err_set_node no_err_set_edge : no_err_db.

Lemma no_err_set_many_edges g es input : no_err (set_many_edges g es input).
Proof.
  revert g. induction es as [|e es IH]; intros g; simpl; [auto with no_err_db|].
  no_err_bind_step. apply IH.
Qed.

Lemma no_err_value_type name : no_err (value_type name).
Proof. unfold value_type. repeat case_match; auto with no_err_db. Qed.

Lemma no_err_node_value heap input i : no_err (node_value heap input i).
Proof.
  unfold node_value. no_err_bind_step. case_match; auto with no_err_db.
Qed.

#[local] Hint Resolve no_err_set_many_edges no_err_value_type no_err_node_value : no_err_db.

Lemma no_err_keyword_edge heap input g e : no_err (keyword_edge heap input g e).
Proof.
  unfold keyword_edge. no_err_bind_step.
  repeat case_match; no_err_bind_step; auto with no_err_db.
Qed.

#[local] Hint Resolve no_err_keyword_edge : no_err_db.

Lemma no_err_keyword_edges heap input g es : no_err (keyword_edges heap input g es).
Proof.
  revert g. induction es as [|e es IH]; intros g; simpl; [auto with no_err_db|].
  no_err_bind_step. apply IH.
Qed.

Lemma no_err_push_targets input es queue : no_err (push_targets input es queue).
Proof.
  revert queue. induction es as [|e es IH]; intros queue; simpl; [auto with no_err_db|].
  no_err_bind_step. apply IH.
Qed.

Lemma derive_loop_no_err heap input fuel g vis queue err :
  derive_loop heap input fuel g vis queue <> Some (Err err).
Proof.
  revert g vis queue. induction fuel as [|fuel IH]; intros g vis queue; simpl; [done|].
  destruct queue as [|[node_id node_edges] rest]; [done|].
  destruct (vis !! node_id) as [[|]|]; [apply IH| |done].
  destruct (push_targets input node_edges rest) as [q|e|m] eqn:Hq.
  - destruct (Nat.eqb node_id 0); [apply IH|].
    destruct (keyword_edges heap input g node_edges) as [g'|e|m] eqn:Hk; [apply IH| |done].
    exfalso. exact (no_err_keyword_edges heap input g node_edges e Hk).
  - exfalso. exact (no_err_push_targets input node_edges rest e Hq).
  - done.
Qed.

End DerivationLemmas.

(** ** Runs on example documents that call no collaborator

    These documents contain no reference, so the outcome is the same for
    every instance of [Resolving]. *)

Section ExampleRuns.
Context `{R : Resolving}.

Lemma new_bad_maximum root resolvers :
  new Examples.bad_maximum_heap 0 root resolvers = Some (Ok Examples.bad_maximum_list).
Proof. vm_compute. reflexivity. Qed.

Lemma try_from_bad_maximum_list :
  try_from Examples.bad_maximum_heap Examples.bad_maximum_list =
    Some (Panic "called `Option::unwrap()` on a `None` value").
Proof. vm_compute. reflexivity. Qed.

Lemma build_maximum root resolvers :
  build Examples.maximum_heap 0 root resolvers = Some (Panic "not yet implemented").
Proof. vm_compute. reflexivity. Qed.

End ExampleRuns.

(** ** Further facts of the traversal and of the derivation pass *)

Section ExtraLemmas.
Context `{R : Resolving}.
Abbreviation Item := (Scope * NodeId * EdgeLabel * ptr)%type (only parsing).
Implicit Types (heap : list Value) (al : AdjacencyList) (q : list Item).

Lemma index_ok {E A} (l : list A) i x : index (E := E) l i = Ok x -> l !! i = Some x.
Proof. unfold index. destruct (l !! i); intros H; inversion H; done. Qed.

(** A member other than [$ref] is enqueued as it is. *)
Lemma expand_members_plain heap resolvers scope sid members q q' key v :
  expand_members heap resolvers scope sid members q = Ok q' ->
  (key, v) ∈ members -> key <> "$ref" ->
  (scope, sid, Key key, v) ∈ q'.
Proof.
  intros H Hm Hk. revert q H.
  induction members as [|[key' value] rest IH]; intros q H; [set_solver|].
  simpl in H. apply bind_ok_inv in H as [q1 [H1 H2]].
  apply elem_of_cons in Hm as [Hm|Hm].
  - injection Hm as <- <-. unfold expand_member in H1.
    destruct (String.eqb_spec key "$ref"); [contradiction|].
    inversion H1; subst. eapply expand_members_keeps; [exact H2|].
    apply elem_of_app. right. by left.
  - by apply (IH Hm q1).
Qed.

(** Items whose parent is not the sentinel leave its edge list alone. *)
Lemma bfs_keeps_sentinel heap resolvers fuel al q al' :
  inv al q -> Forall (fun it => 1 <= item_parent it) q ->
  bfs heap resolvers fuel al q = Some (Ok al') -> edges al' !! 0 = edges al !! 0.
Proof.
  revert al q. induction fuel as [|fuel IH]; intros al q Inv Hq H; [discriminate|].
  simpl in H. destruct q as [|[[[scope p] l] node] rest].
  - inversion H; subst. done.
  - assert (Hp : p < length (edges al)).
    { rewrite (inv_len _ _ Inv). pose proof (inv_parents _ _ Inv) as Hpar.
      inversion Hpar; done. }
    apply Forall_cons in Hq as [Hp1 Hrest]. simpl in Hp1.
    destruct (push al p l node) as [[al1 slot]| |] eqn:Hpush; try discriminate.
    apply push_spec in Hpush as (es & Hes & [(i & Hv & -> & ->)|(Hv & -> & ->)]); [| |done].
    + simpl in H. rewrite (IH _ _ (inv_step_seen _ scope _ _ _ _ _ _ Inv Hv Hes) Hrest H).
      simpl. rewrite list_lookup_insert_ne by lia. done.
    + simpl in H.
      destruct (expand heap resolvers scope (length (nodes al)) node rest) as [q'| |] eqn:Hexp;
        try discriminate.
      apply expand_appends in Hexp as (nw & -> & Hnw & _).
      assert (Inv1 := inv_step_new _ scope _ _ _ _ _ _ Inv Hv Hes Hnw).
      assert (H0 : 0 < length (nodes al)).
      { destruct (inv_shape _ _ Inv) as [ps ->]. simpl. lia. }
      rewrite (IH _ _ Inv1); [| |exact H].
      * simpl. rewrite list_lookup_insert_ne by lia.
        rewrite lookup_app_l by (rewrite (inv_len _ _ Inv); lia). done.
      * apply Forall_app. split; [done|].
        eapply Forall_impl; [exact Hnw|]. intros it ->. lia.
Qed.

(** The weights of a derivation queue. *)
Lemma sum_le {A} (f g : A -> nat) (l : list A) :
  (forall x, f x <= g x) -> list_sum (map f l) <= list_sum (map g l).
Proof. intros Hfg. induction l as [|x l IH]; simpl; [done|]. specialize (Hfg x). lia. Qed.

Lemma sum_zero {A} (l : list A) : list_sum (map (fun _ => 0) l) = 0.
Proof. induction l; simpl; auto. Qed.

Lemma sum_edge_lists (E : list (list Edge)) n :
  list_sum (map (fun i => length (default [] (E !! i))) (seq 0 n)) <= length (concat E).
Proof.
  revert n. induction E as [|x E IH]; intros n.
  - rewrite (map_ext _ (fun _ => 0)) by (intros [|i]; reflexivity).
    rewrite sum_zero. simpl. lia.
  - destruct n as [|n]; simpl; [lia|]. rewrite length_app.
    rewrite <- seq_shift, map_map. simpl. specialize (IH n). lia.
Qed.

Lemma derive_weight_insert input (vis : list bool) i (l : list nat) :
  vis !! i = Some false -> NoDup l ->
  list_sum (map (derive_weight input (<[i := true]> vis)) l) +
    (if bool_decide (i ∈ l) then length (default [] (edges input !! i)) else 0) =
  list_sum (map (derive_weight input vis) l).
Proof.
  intros Hi. induction l as [|a l IH]; intros Hnd; simpl.
  - done.
  - apply NoDup_cons in Hnd as [Ha Hnd]. specialize (IH Hnd).
    unfold derive_weight at 1 3.
    destruct (decide (a = i)) as [->|Hne].
    + rewrite list_lookup_insert_eq by (by apply lookup_lt_Some in Hi).
      rewrite Hi. rewrite bool_decide_true by set_solver.
      rewrite bool_decide_false in IH by done. lia.
    + rewrite list_lookup_insert_ne by congruence.
      rewrite (bool_decide_ext (i ∈ a :: l) (i ∈ l)) by set_solver. lia.
Qed.

Lemma push_targets_spec input es queue out :
  push_targets input es queue = Ok out ->
  length out = length queue + length es /\ (entries_ok input queue -> entries_ok input out).
Proof.
  revert queue. induction es as [|e rest IH]; intros queue H; simpl in H.
  - inversion H; subst. split; [simpl; lia|done].
  - apply bind_ok_inv in H as [tes [Ht H]]. apply IH in H as [Hl Hok].
    rewrite length_app in Hl. simpl in Hl. split; [simpl; lia|].
    intros Hq. apply Hok. apply Forall_app. split; [done|].
    constructor; [|constructor]. simpl. by apply index_ok in Ht.
Qed.

Lemma derive_loop_terminates heap input fuel g vis queue :
  entries_ok input queue -> derive_potential input vis queue < fuel ->
  derive_loop heap input fuel g vis queue <> None.
Proof.
  revert g vis queue. induction fuel as [|fuel IH]; intros g vis queue Hq Hf; [lia|].
  simpl. destruct queue as [|[node_id node_edges] rest]; [discriminate|].
  apply Forall_cons in Hq as [He Hrest]. simpl in He.
  unfold derive_potential in Hf. simpl in Hf.
  destruct (vis !! node_id) as [[|]|] eqn:Hv.
  - apply IH; [done|]. unfold derive_potential. lia.
  - pose proof (derive_weight_insert input vis node_id (seq 0 (length vis)) Hv
                  (NoDup_seq 0 _)) as Hw.
    rewrite bool_decide_true in Hw
      by (apply elem_of_seq; apply lookup_lt_Some in Hv; lia).
    rewrite He in Hw. simpl in Hw.
    destruct (push_targets input node_edges rest) as [q| |] eqn:Hp; try discriminate.
    apply push_targets_spec in Hp as [Hl Hok].
    assert (Hf' : derive_potential input (<[node_id := true]> vis) q < fuel).
    { unfold derive_potential. rewrite length_insert. lia. }
    destruct (Nat.eqb node_id 0); [by apply IH; auto|].
    destruct (keyword_edges heap input g node_edges); try discriminate.
    by apply IH; auto.
  - discriminate.
Qed.

(** What the derivation pass sets stays sound. *)
Lemma set_node_sound heap input g i kw g' :
  graph_sound heap input g -> keyword_sound heap input i kw ->
  set_node g i kw = Ok g' -> graph_sound heap input g'.
Proof.
  intros [Hn He Hk Hr] Hkw. unfold set_node. case_decide; [|discriminate].
  intros Hg; inversion Hg; subst; clear Hg. split; simpl.
  - by rewrite length_insert.
  - done.
  - intros j kw'. destruct (decide (j = i)) as [->|Hne].
    + rewrite list_lookup_insert_eq by done. intros [= ->]. done.
    + rewrite list_lookup_insert_ne by congruence. apply Hk.
  - done.
Qed.

Lemma set_edge_sound heap input g i l r g' :
  graph_sound heap input g -> ranged_edge_sound input i {| re_label := l; re_nodes := r |} ->
  set_edge g i l r = Ok g' -> graph_sound heap input g'.
Proof.
  intros [Hn He Hk Hr] Hre. unfold set_edge. case_decide; [|discriminate].
  intros Hg; inversion Hg; subst; clear Hg. split; simpl.
  - done.
  - by rewrite length_insert.
  - done.
  - intros j re. destruct (decide (j = i)) as [->|Hne].
    + rewrite list_lookup_insert_eq by done. intros [= <-]. done.
    + rewrite list_lookup_insert_ne by congruence. apply Hr.
Qed.

Definition from_input (input : AdjacencyList) (es : list Edge) : Prop :=
  forall e, e ∈ es -> exists j es', edges input !! j = Some es' /\ e ∈ es'.

Lemma from_input_lookup input j es : edges input !! j = Some es -> from_input input es.
Proof. intros Hj e He. eauto. Qed.

Lemma from_input_tail input e es : from_input input (e :: es) -> from_input input es.
Proof. intros H e' He'. apply H. by right. Qed.

Lemma set_many_edges_sound heap input g es g' :
  graph_sound heap input g -> from_input input es ->
  set_many_edges g es input = Ok g' -> graph_sound heap input g'.
Proof.
  revert g. induction es as [|e rest IH]; intros g Hs Hin H; simpl in H.
  - by inversion H; subst.
  - apply bind_ok_inv in H as [r [Hr H]]. apply bind_ok_inv in H as [g1 [H1 H]].
    eapply IH; [|eapply from_input_tail; exact Hin|exact H].
    eapply set_edge_sound; [exact Hs| |exact H1].
    split; [|done]. destruct (Hin e ltac:(left)) as (j & es' & Hj & He).
    exists j, es', e. done.
Qed.

Lemma as_u64_some v n : as_u64 v = Some n -> v = Num (PosInt n).
Proof. destruct v as [| |[| |]| | |]; simpl; congruence. Qed.

Lemma as_str_some v s : as_str v = Some s -> v = String s.
Proof. destruct v; simpl; congruence. Qed.

Lemma unwrap_ok {E A} (o : option A) a : unwrap (E := E) o = Ok a -> o = Some a.
Proof. destruct o; simpl; congruence. Qed.

Lemma keyword_edge_sound heap input g e g' :
  graph_sound heap input g -> from_input input [e] ->
  keyword_edge heap input g e = Ok g' -> graph_sound heap input g'.
Proof.
  intros Hs Hin H. unfold keyword_edge in H.
  apply bind_ok_inv in H as [v [Hv H]].
  destruct (as_key (label e)) as [k|] eqn:Hk; [|by inversion H; subst].
  assert (Hlab : labelled input (target e) k).
  { destruct (Hin e ltac:(left)) as (j & es & Hj & He). exists j, es, e.
    repeat split; try done. destruct (label e); simpl in Hk; congruence. }
  revert H.
  destruct (String.eqb_spec k "maximum") as [->|_]; cbv iota.
  { intros H. apply bind_ok_inv in H as [n [Hn H]]. apply unwrap_ok, as_u64_some in Hn.
    subst. eapply set_node_sound; [exact Hs| |exact H]. done. }
  destruct (String.eqb_spec k "maxLength") as [->|_]; cbv iota.
  { intros H. apply bind_ok_inv in H as [n [Hn H]]. apply unwrap_ok, as_u64_some in Hn.
    subst. eapply set_node_sound; [exact Hs| |exact H]. done. }
  destruct (String.eqb_spec k "minProperties") as [->|_]; cbv iota.
  { intros H. apply bind_ok_inv in H as [n [Hn H]]. apply unwrap_ok, as_u64_some in Hn.
    subst. eapply set_node_sound; [exact Hs| |exact H]. done. }
  destruct (String.eqb_spec k "type") as [->|_]; cbv iota.
  { intros H. apply bind_ok_inv in H as [name [Hn H]]. apply unwrap_ok, as_str_some in Hn.
    apply bind_ok_inv in H as [t [Ht H]]. subst.
    eapply set_node_sound; [exact Hs| |exact H]. split; [done|]. eauto. }
  destruct (String.eqb_spec k "properties") as [->|_]; cbv iota.
  { intros H. apply bind_ok_inv in H as [r [Hr H]]. apply bind_ok_inv in H as [g1 [H1 H]].
    apply bind_ok_inv in H as [es [Hes H]]. apply index_ok in Hes.
    eapply set_many_edges_sound; [|eapply from_input_lookup; exact Hes|exact H].
    eapply set_node_sound; [exact Hs| |exact H1]. done. }
  destruct (String.eqb_spec k "items") as [->|_]; cbv iota.
  { intros H. eapply set_node_sound; [exact Hs| |exact H]. done. }
  destruct (String.eqb_spec k "allOf") as [->|_]; cbv iota.
  { intros H. apply bind_ok_inv in H as [r [Hr H]]. apply bind_ok_inv in H as [g1 [H1 H]].
    apply bind_ok_inv in H as [es [Hes H]]. apply index_ok in Hes.
    eapply set_many_edges_sound; [|eapply from_input_lookup; exact Hes|exact H].
    eapply set_node_sound; [exact Hs| |exact H1]. done. }
  destruct (String.eqb_spec k "$ref") as [->|_]; cbv iota.
  { intros H. apply bind_ok_inv in H as [r [Hr H]].
    eapply set_node_sound; [exact Hs| |exact H]. done. }
  intros H. by inversion H; subst.
Qed.

Lemma keyword_edges_sound heap input g es g' :
  graph_sound heap input g -> from_input input es ->
  keyword_edges heap input g es = Ok g' -> graph_sound heap input g'.
Proof.
  revert g. induction es as [|e rest IH]; intros g Hs Hin H; simpl in H.
  - by inversion H; subst.
  - apply bind_ok_inv in H as [g1 [H1 H]].
    eapply IH; [|eapply from_input_tail; exact Hin|exact H].
    eapply keyword_edge_sound; [exact Hs| |exact H1].
    intros e' He'. apply Hin. apply list_elem_of_singleton in He'. subst. left.
Qed.

Lemma derive_loop_sound heap input fuel g vis queue g' :
  graph_sound heap input g -> entries_ok input queue ->
  derive_loop heap input fuel g vis queue = Some (Ok g') -> graph_sound heap input g'.
Proof.
  revert g vis queue. induction fuel as [|fuel IH]; intros g vis queue Hs Hq H;
    [discriminate|].
  simpl in H. destruct queue as [|[node_id node_edges] rest].
  { inversion H; subst. exact Hs. }
  apply Forall_cons in Hq as [He Hrest]. simpl in He.
  destruct (vis !! node_id) as [[|]|]; [eapply IH; [exact Hs|exact Hrest|exact H]| |discriminate].
  destruct (push_targets input node_edges rest) as [q| |] eqn:Hp; try discriminate.
  apply push_targets_spec in Hp as [_ Hok]. specialize (Hok Hrest).
  destruct (Nat.eqb node_id 0); [eapply IH; [exact Hs|exact Hok|exact H]|].
  destruct (keyword_edges heap input g node_edges) as [g1| |] eqn:Hk; try discriminate.
  eapply IH; [|exact Hok|exact H].
  eapply keyword_edges_sound; [exact Hs| |exact Hk]. by eapply from_input_lookup.
Qed.

Lemma repeat_lookup {A} (x y : A) n i : repeat x n !! i = Some y -> y = x.
Proof.
  revert i. induction n as [|n IH]; intros [|i]; simpl; try discriminate.
  - congruence.
  - apply IH.
Qed.

Lemma try_from_sound heap input g :
  try_from heap input = Some (Ok g) -> graph_sound heap input g.
Proof.
  unfold try_from. destruct (index (edges input) 0) as [es0| |] eqn:H0; try discriminate.
  intros H. eapply derive_loop_sound; [|constructor; [|constructor]|exact H].
  - split; simpl.
    + apply repeat_length.
    + apply repeat_length.
    + intros i kw Hi. apply repeat_lookup in Hi. discriminate.
    + intros i re Hi. apply repeat_lookup in Hi. discriminate.
  - simpl. by apply index_ok in H0.
Qed.

Lemma keyword_sound_labelled heap input i kw :
  keyword_sound heap input i kw -> exists k, labelled input i k.
Proof.
  destruct kw; simpl; intros H;
    first [destruct H as [H _]; eexists; exact H | eexists; exact H].
Qed.

(** The sentinel keeps the one edge to the schema node. *)
Lemma new_sentinel_edges heap schema root resolvers al :
  new heap schema root resolvers = Some (Ok al) ->
  edges al !! 0 = Some [{| label := Index 0; target := 1 |}] /\
  nodes al !! 1 = Some (At schema).
Proof.
  unfold new, traversal_fuel. intros H.
  replace (2 + pending heap ∅) with (S (1 + pending heap ∅)) in H by lia.
  cbn [bfs] in H.
  pose proof (inv_init schema (scope_new root)) as Inv.
  destruct (push empty 0 (Index 0) schema) as [[al1 slot]| |] eqn:Hpush; try discriminate.
  apply push_spec in Hpush as (es & Hes & [(j & Hv & -> & ->)|(Hv & -> & ->)]);
    [| |simpl; lia].
  - simpl in Hv. rewrite lookup_empty in Hv. discriminate.
  - change (length (nodes empty)) with 1 in H |- *.
    change (is_new (new_slot 1)) with true in H. cbv iota in H.
    change (id (new_slot 1)) with 1 in H.
    assert (es = []) as -> by (simpl in Hes; congruence).
    destruct (expand heap resolvers (scope_new root) 1 schema []) as [q| |] eqn:Hexp;
      try discriminate.
    apply expand_appends in Hexp as (nw & -> & Hnw & _).
    assert (Inv1 := inv_step_new _ (scope_new root) _ _ _ _ _ _ Inv Hv Hes Hnw).
    split.
    + rewrite (bfs_keeps_sentinel heap resolvers (1 + pending heap ∅) _ _ _ Inv1);
        [done| |exact H].
      eapply Forall_impl; [exact Hnw|]. intros it ->. simpl. lia.
    + destruct (bfs_grows _ _ _ _ _ _ Inv1 H) as [Gn _]. simpl in Gn.
      eapply prefix_lookup_Some; [|exact Gn]. done.
Qed.

(** The derivation loop always finishes within its fuel. *)
Lemma try_from_total heap input : try_from heap input <> None.
Proof.
  unfold try_from. destruct (index (edges input) 0) as [es0| |] eqn:H0; try discriminate.
  apply derive_loop_terminates.
  - constructor; [|constructor]. simpl. by apply index_ok in H0.
  - unfold derive_potential. simpl.
    pose proof (sum_le (derive_weight input (repeat false (length (nodes input))))
                  (fun i => length (default [] (edges input !! i)))
                  (seq 0 (length (repeat false (length (nodes input))))))
      as Hle.
    pose proof (sum_edge_lists (edges input) (length (repeat false (length (nodes input)))))
      as Hb.
    assert (Hw : forall x, derive_weight input (repeat false (length (nodes input))) x <=
                           length (default [] (edges input !! x))).
    { intros x. unfold derive_weight. destruct (_ !! x) as [[|]|]; lia. }
    specialize (Hle Hw). lia.
Qed.

End ExtraLemmas.

(** ** Every reached node goes through the derivation loop *)

Section ReachLemmas.
Context `{R : Resolving}.
Abbreviation Item := (Scope * NodeId * EdgeLabel * ptr)%type (only parsing).
Implicit Types (heap : list Value) (al : AdjacencyList) (q : list Item).

Lemma lookup_insert_true (vis : list bool) i j :
  vis !! i = Some false ->
  <[i := true]> vis !! j = Some true <-> j = i \/ vis !! j = Some true.
Proof.
  intros Hi. destruct (decide (j = i)) as [->|Hne].
  - rewrite list_lookup_insert_eq by (by apply lookup_lt_Some in Hi).
    split; [auto|]. intros _. done.
  - rewrite list_lookup_insert_ne by congruence. split; [auto|]. intros [?|?]; done.
Qed.

(** A wrongly shaped keyword edge never yields a graph. *)
Lemma keyword_edge_bad heap input g e g' :
  wrongly_shaped heap input e -> keyword_edge heap input g e <> Ok g'.
Proof.
  intros Hw. unfold keyword_edge.
  destruct (node_value heap input (target e)) as [v| |] eqn:Hv; simpl; [|discriminate..].
  destruct Hw as [[Hl Hu]|[Hl Hs]].
  - specialize (Hu v Hv).
    repeat (apply elem_of_cons in Hl as [Hl|Hl]; [rewrite Hl; simpl; rewrite Hu; discriminate|]).
    set_solver.
  - rewrite Hl. simpl. destruct (Hs v Hv) as [Hn|(name & Hn & Hnot)]; rewrite Hn; simpl;
      [discriminate|].
    unfold value_type.
    repeat (rewrite (proj2 (String.eqb_neq _ _)) by (intros ->; set_solver)).
    discriminate.
Qed.

Lemma keyword_edges_bad heap input g es e g' :
  e ∈ es -> wrongly_shaped heap input e -> keyword_edges heap input g es <> Ok g'.
Proof.
  intros He Hw. revert g. induction es as [|e0 es IH]; intros g; [set_solver|]. simpl.
  destruct (keyword_edge heap input g e0) as [g1| |] eqn:Hk; simpl; [|discriminate..].
  apply elem_of_cons in He as [->|He].
  - exfalso. exact (keyword_edge_bad _ _ _ _ _ Hw Hk).
  - by apply IH.
Qed.

Lemma push_targets_ids input es queue out :
  push_targets input es queue = Ok out -> map fst out = map fst queue ++ map target es.
Proof.
  revert queue. induction es as [|e rest IH]; intros queue H; simpl in H.
  - inversion H; subst. by rewrite app_nil_r.
  - apply bind_ok_inv in H as [tes [_ H]]. apply IH in H. rewrite H, map_app.
    simpl. by rewrite <- app_assoc.
Qed.

(** When the loop returns a graph, no node reached from a visited or a
    queued node has a wrongly shaped keyword edge: every such node is
    visited, and a visited node other than the sentinel had its edges
    read. *)
Lemma derive_loop_covers heap input fuel g vis queue g' :
  derive_loop heap input fuel g vis queue = Some (Ok g') ->
  entries_ok input queue ->
  (forall i es e, vis !! i = Some true -> edges input !! i = Some es -> e ∈ es ->
     vis !! target e = Some true \/ target e ∈ map fst queue) ->
  (forall i, vis !! i = Some true -> ~ bad_node heap input i) ->
  forall n m, vis !! n = Some true \/ n ∈ map fst queue -> reaches input n m ->
    ~ bad_node heap input m.
Proof.
  revert g vis queue. induction fuel as [|fuel IH]; intros g vis queue H Hq Hcl Hnb;
    [discriminate|].
  simpl in H. destruct queue as [|[node_id node_edges] rest].
  - intros n m Hn Hr. apply Hnb.
    destruct Hn as [Hn|Hn]; [|set_solver].
    induction Hr as [|m es e Hr IHr Hm He]; [done|].
    destruct (Hcl m es e IHr Hm He) as [?|?]; [done|set_solver].
  - apply Forall_cons in Hq as [Hhd Hrest]. simpl in Hhd.
    destruct (vis !! node_id) as [[|]|] eqn:Hv; [| |discriminate].
    + intros n m Hn. apply (IH g vis rest H Hrest); [|done|].
      * intros i es e Hi Hes He. destruct (Hcl i es e Hi Hes He) as [?|Ht]; [by left|].
        simpl in Ht. apply elem_of_cons in Ht as [Ht|Ht]; [left; by rewrite Ht|by right].
      * simpl in Hn. destruct Hn as [?|Hn]; [by left|].
        apply elem_of_cons in Hn as [->|Hn]; [by left|by right].
    + destruct (push_targets input node_edges rest) as [q| |] eqn:Hp; try discriminate.
      pose proof (push_targets_ids _ _ _ _ Hp) as Hids.
      apply push_targets_spec in Hp as [_ Hok]. specialize (Hok Hrest).
      assert (~ bad_node heap input node_id /\
              exists g1, derive_loop heap input fuel g1 (<[node_id := true]> vis) q =
                         Some (Ok g')) as [Hbad [g1 Hrun]].
      { destruct (Nat.eqb_spec node_id 0) as [->|Hne].
        - split; [intros [? _]; done|]. by exists g.
        - destruct (keyword_edges heap input g node_edges) as [g1| |] eqn:Hk; try discriminate.
          split; [|by exists g1].
          intros [_ (es & e & Hes & He & Hw)]. rewrite Hhd in Hes. injection Hes as <-.
          exact (keyword_edges_bad _ _ _ _ _ _ He Hw Hk). }
      intros n m Hn. apply (IH g1 _ q Hrun Hok).
      * intros i es e Hi Hes He. rewrite lookup_insert_true in Hi by done.
        rewrite lookup_insert_true by done. rewrite Hids.
        destruct Hi as [->|Hi].
        -- rewrite Hhd in Hes. injection Hes as <-. right. apply elem_of_app. right.
           by apply list_elem_of_In, in_map, list_elem_of_In.
        -- destruct (Hcl i es e Hi Hes He) as [?|Ht]; [by left; right|].
           simpl in Ht. apply elem_of_cons in Ht as [Ht|Ht]; [by left; left|].
           right. apply elem_of_app. by left.
      * intros i Hi. rewrite lookup_insert_true in Hi by done.
        destruct Hi as [->|Hi]; [done|by apply Hnb].
      * rewrite lookup_insert_true by done. rewrite Hids.
        destruct Hn as [Hn|Hn]; [by left; right|].
        simpl in Hn. apply elem_of_cons in Hn as [->|Hn]; [by left; left|].
        right. apply elem_of_app. by left.
Qed.

(** When [try_from] returns a graph, no node reached from the sentinel has
    a wrongly shaped keyword edge. *)
Lemma try_from_covers heap input g m :
  try_from heap input = Some (Ok g) -> reaches input 0 m -> ~ bad_node heap input m.
Proof.
  unfold try_from. destruct (index (edges input) 0) as [es0| |] eqn:H0; try discriminate.
  intros H Hr. eapply (derive_loop_covers _ _ _ _ _ _ _ H); [| | |by right; left|exact Hr].
  - constructor; [|constructor]. simpl. by apply index_ok in H0.
  - intros i es e Hi. apply repeat_lookup in Hi. discriminate.
  - intros i Hi. apply repeat_lookup in Hi. discriminate.
Qed.

(** Every node a run creates gets its first inbound edge from a node
    created before it. *)
Lemma bfs_earlier_parent heap resolvers fuel al q al' i :
  inv al q -> bfs heap resolvers fuel al q = Some (Ok al') ->
  length (nodes al) <= i < length (nodes al') ->
  exists p es e, p < i /\ edges al' !! p = Some es /\ e ∈ es /\ target e = i.
Proof.
  revert al q. induction fuel as [|fuel IH]; intros al q Inv H Hi; [discriminate|].
  simpl in H. destruct q as [|[[[scope p0] l] node] rest].
  - inversion H; subst. lia.
  - assert (Hp : p0 < length (edges al)).
    { rewrite (inv_len _ _ Inv). pose proof (inv_parents _ _ Inv) as Hpar.
      inversion Hpar; done. }
    destruct (push al p0 l node) as [[al1 slot]| |] eqn:Hpush; try discriminate.
    apply push_spec in Hpush as (es & Hes & [(j & Hv & -> & ->)|(Hv & -> & ->)]); [| |done].
    + simpl in H. eapply IH; [by eapply (inv_step_seen _ scope)|exact H|done].
    + simpl in H.
      destruct (expand heap resolvers scope (length (nodes al)) node rest) as [q'| |] eqn:Hexp;
        try discriminate.
      apply expand_appends in Hexp as (nw & -> & Hnw & _).
      assert (Inv1 := inv_step_new _ scope _ _ _ _ _ _ Inv Hv Hes Hnw).
      destruct (decide (i = length (nodes al))) as [->|Hne].
      * destruct (bfs_grows _ _ _ _ _ _ Inv1 H) as [_ Ge].
        simpl in Ge. destruct (Ge p0 (es ++ [{| label := l; target := length (nodes al) |}]))
          as (es' & Hes' & Hpre).
        { apply list_lookup_insert_eq. rewrite length_app. simpl. lia. }
        exists p0, es', {| label := l; target := length (nodes al) |}.
        split; [rewrite <- (inv_len _ _ Inv); done|]. split; [done|]. split; [|done].
        eapply elem_of_prefix; [|exact Hpre]. apply elem_of_app. right. by left.
      * eapply IH; [exact Inv1|exact H|]. simpl. rewrite length_app. simpl. lia.
Qed.

(** Every node of the result of [new] is reached from the sentinel. *)
Lemma new_reaches_all heap schema root resolvers al i :
  new heap schema root resolvers = Some (Ok al) -> i < length (nodes al) -> reaches al 0 i.
Proof.
  intros H. induction i as [i IHi] using lt_wf_ind. intros Hi.
  destruct i as [|i]; [constructor|].
  unfold new in H.
  destruct (bfs_earlier_parent _ _ _ _ _ _ (S i) (inv_init schema (scope_new root)) H)
    as (p & es & e & Hlt & Hes & He & Ht); [simpl; lia|].
  rewrite <- Ht. eapply reaches_step; [|exact Hes|exact He].
  apply IHi; [done|]. lia.
Qed.

End ReachLemmas.

(** ** The order in which the traversal creates nodes *)

Section OrderLemmas.
Context `{R : Resolving}.
Abbreviation Item := (Scope * NodeId * EdgeLabel * ptr)%type (only parsing).
Implicit Types (heap : list Value) (al : AdjacencyList) (q : list Item).

Lemma parents_sorted_app q1 q2 :
  parents_sorted q1 -> parents_sorted q2 ->
  Forall (fun it => Forall (fun it' => item_parent it <= item_parent it') q2) q1 ->
  parents_sorted (q1 ++ q2).
Proof.
  induction q1 as [|it q1 IH]; simpl; [auto|]. intros [Hit H1] H2 H12.
  apply Forall_cons in H12 as [Hit2 H12]. split; [apply Forall_app; by split|].
  by apply IH.
Qed.

Lemma parents_sorted_const q n : Forall (fun it => item_parent it = n) q -> parents_sorted q.
Proof.
  induction q as [|it q IH]; simpl; [done|]. intros Hq.
  apply Forall_cons in Hq as [Hit Hq]. split; [|by apply IH].
  eapply Forall_impl; [exact Hq|]. intros it' Hit'. cbv beta in *. lia.
Qed.

Lemma order_init schema (scope : Scope) : order_inv empty [(scope, 0, Index 0, schema)].
Proof.
  constructor.
  - simpl. split; [constructor|done].
  - intros p es Hp Hne. destruct p as [|p]; simpl in Hp; [|discriminate].
    injection Hp as <-. done.
  - intros i Hi. simpl in Hi. lia.
  - intros p es Hp _. destruct p as [|p]; simpl in Hp; [|discriminate].
    injection Hp as <-. exists 0. split; [done|]. intros []; done.
Qed.

(** The popped item is a revisit. *)
Lemma order_step_seen al scope p l node rest i es :
  inv al ((scope, p, l, node) :: rest) -> order_inv al ((scope, p, l, node) :: rest) ->
  visited al !! node = Some i -> edges al !! p = Some es ->
  order_inv {| nodes := nodes al;
               edges := <[p := es ++ [{| label := l; target := i |}]]> (edges al);
               visited := visited al |} rest.
Proof.
  intros Inv Ord Hv Hp.
  destruct Ord as [Hsort Hstart Hcreat Hfresh]. simpl in Hsort. destruct Hsort as [Hhd Hsort].
  assert (Hlk : forall j, <[p := es ++ [{| label := l; target := i |}]]> (edges al) !! j =
            if decide (j = p) then Some (es ++ [{| label := l; target := i |}])
            else edges al !! j).
  { intros j. case_decide as Hj.
    - subst. apply list_lookup_insert_eq. by apply lookup_lt_Some in Hp.
    - apply list_lookup_insert_ne. congruence. }
  constructor; simpl.
  - exact Hsort.
  - intros p0 es0 Hp0 Hne. rewrite Hlk in Hp0. case_decide as Hj; [subst p0; exact Hhd|].
    specialize (Hstart p0 es0 Hp0 Hne). by apply Forall_cons in Hstart as [_ ?].
  - intros i0 Hi0. destruct (Hcreat i0 Hi0) as (cp & esc & ec & Hc & Hec & Htc & Hall).
    apply Forall_cons in Hall as [_ Hall].
    destruct (decide (cp = p)) as [->|Hne].
    + rewrite Hc in Hp. injection Hp as <-.
      exists p, (esc ++ [{| label := l; target := i |}]), ec.
      rewrite Hlk, decide_True by done. split; [done|].
      split; [apply elem_of_app; by left|]. done.
    + exists cp, esc, ec. rewrite Hlk, decide_False by done. done.
  - intros p0 es0 Hp0 Hft. rewrite Hlk in Hp0.
    destruct (decide (es0 = [])) as [->|Hne0]; [exists 0; split; [done|intros []; done]|].
    case_decide as Hj.
    + subst p0. injection Hp0 as <-. exfalso.
      assert (Hi : 1 <= i < length (nodes al)).
      { apply (inv_visited _ _ Inv) in Hv. split; [|by apply lookup_lt_Some in Hv].
        destruct i; [|lia]. destruct (inv_shape _ _ Inv) as [ps Hps].
        rewrite Hps in Hv. discriminate. }
      destruct (Hcreat i Hi) as (cp & esc & ec & Hc & Hec & Htc & Hall).
      apply Forall_cons in Hall as [Hcp _]. simpl in Hcp.
      destruct Hft as [Hnd Hdis].
      destruct (decide (cp = p)) as [->|Hne].
      * rewrite Hc in Hp. injection Hp as ->. rewrite map_app in Hnd. simpl in Hnd.
        apply NoDup_app in Hnd as (_ & Hdisj & _). apply (Hdisj i); [|by left].
        rewrite <- Htc. by apply list_elem_of_In, in_map, list_elem_of_In.
      * apply (Hdis cp esc ec {| label := l; target := i |}); [lia| |done| |done].
        -- rewrite Hlk, decide_False by done. exact Hc.
        -- apply elem_of_app. right. by left.
    + assert (Hp0p : p0 < p).
      { specialize (Hstart p0 es0 Hp0 Hne0). apply Forall_cons in Hstart as [H _].
        simpl in H. lia. }
      destruct (Hfresh p0 es0 Hp0) as (s & Hs & Hlast).
      { destruct Hft as [Hnd Hdis]. split; [done|].
        intros j esj ej e Hj' Hjl. apply (Hdis j esj ej e Hj').
        rewrite Hlk, decide_False by lia. done. }
      exists s. split; [done|]. intros _ Hin. apply Hlast; [done|]. simpl. by right.
Qed.

(** The popped item is a first visit. *)
Lemma order_step_new al scope p l node rest es nw :
  inv al ((scope, p, l, node) :: rest) -> order_inv al ((scope, p, l, node) :: rest) ->
  visited al !! node = None -> edges al !! p = Some es ->
  Forall (fun it => item_parent it = length (nodes al)) nw ->
  order_inv {| nodes := nodes al ++ [At node];
               edges := <[p := es ++ [{| label := l; target := length (nodes al) |}]]>
                          (edges al ++ [[]]);
               visited := <[node := length (nodes al)]> (visited al) |} (rest ++ nw).
Proof.
  intros Inv Ord Hv Hp Hnw.
  destruct Ord as [Hsort Hstart Hcreat Hfresh]. simpl in Hsort. destruct Hsort as [Hhd Hsort].
  assert (Hlen : length (edges al) = length (nodes al)) by apply (inv_len _ _ Inv).
  assert (Hplt : p < length (nodes al)) by (apply lookup_lt_Some in Hp; lia).
  assert (Hpar : Forall (fun it => item_parent it < length (nodes al)) rest).
  { pose proof (inv_parents _ _ Inv) as H. by apply Forall_cons in H as [_ H]. }
  assert (HnwN : forall n, n <= length (nodes al) ->
            Forall (fun it => n <= item_parent it) nw).
  { intros n Hn. eapply Forall_impl; [exact Hnw|]. intros it Hit'. cbv beta in *. lia. }
  assert (Hlk : forall j,
    <[p := es ++ [{| label := l; target := length (nodes al) |}]]> (edges al ++ [[]]) !! j =
      if decide (j = p) then Some (es ++ [{| label := l; target := length (nodes al) |}])
      else if decide (j = length (nodes al)) then Some [] else edges al !! j).
  { intros j. case_decide as Hj.
    - subst. apply list_lookup_insert_eq. rewrite length_app. simpl. lia.
    - rewrite list_lookup_insert_ne by congruence. case_decide as HjN.
      + subst. rewrite lookup_app_r by lia. rewrite Hlen, Nat.sub_diag. done.
      + destruct (decide (j < length (nodes al))).
        * rewrite lookup_app_l by lia. done.
        * rewrite !lookup_ge_None_2; [done| |]; rewrite ?length_app; simpl; lia. }
  constructor; simpl.
  - apply parents_sorted_app; [done|by apply parents_sorted_const with (length (nodes al))|].
    eapply Forall_impl; [exact Hpar|]. intros it Hit.
    eapply Forall_impl; [exact Hnw|]. intros it' Hit'. cbv beta in *. lia.
  - intros p0 es0 Hp0 Hne. rewrite Hlk in Hp0. apply Forall_app.
    case_decide as Hj; [subst p0; split; [exact Hhd|apply HnwN; lia]|].
    case_decide as HjN; [injection Hp0 as <-; done|].
    assert (p0 < length (nodes al)) by (apply lookup_lt_Some in Hp0; lia).
    specialize (Hstart p0 es0 Hp0 Hne). apply Forall_cons in Hstart as [_ Hr].
    split; [exact Hr|apply HnwN; lia].
  - intros i0 Hi0. rewrite length_app in Hi0. simpl in Hi0.
    destruct (decide (i0 = length (nodes al))) as [->|Hne].
    + exists p, (es ++ [{| label := l; target := length (nodes al) |}]),
        {| label := l; target := length (nodes al) |}.
      rewrite Hlk, decide_True by done. split; [done|].
      split; [apply elem_of_app; right; by left|]. split; [done|].
      apply Forall_app. split; [exact Hhd|apply HnwN; lia].
    + destruct (Hcreat i0) as (cp & esc & ec & Hc & Hec & Htc & Hall); [lia|].
      apply Forall_cons in Hall as [_ Hall].
      assert (Hcp : cp < length (nodes al)) by (apply lookup_lt_Some in Hc; lia).
      destruct (decide (cp = p)) as [->|Hne'].
      * rewrite Hc in Hp. injection Hp as <-.
        exists p, (esc ++ [{| label := l; target := length (nodes al) |}]), ec.
        rewrite Hlk, decide_True by done. split; [done|].
        split; [apply elem_of_app; by left|]. split; [done|].
        apply Forall_app. split; [done|apply HnwN; lia].
      * exists cp, esc, ec. rewrite Hlk, decide_False, decide_False by lia.
        split; [done|]. split; [done|]. split; [done|].
        apply Forall_app. split; [done|apply HnwN; lia].
  - intros p0 es0 Hp0 Hft. rewrite Hlk in Hp0.
    destruct (decide (es0 = [])) as [->|Hne0]; [exists 0; split; [done|intros []; done]|].
    case_decide as Hj.
    + subst p0. injection Hp0 as <-.
      destruct (Hfresh p es Hp) as (s & Hs & Hlast).
      { destruct Hft as [Hnd Hdis]. split.
        - rewrite map_app in Hnd. by apply NoDup_app in Hnd as (? & _ & _).
        - intros j esj ej e Hjp Hjl Hej He.
          apply (Hdis j esj ej e Hjp); [|done|apply elem_of_app; by left].
          rewrite Hlk, decide_False, decide_False by lia. done. }
      destruct (decide (es = [])) as [->|Hes].
      * exists (length (nodes al)). simpl. split; [done|].
        intros _ _. rewrite length_app. simpl. lia.
      * assert (Hq : p ∈ map item_parent ((scope, p, l, node) :: rest)) by (simpl; left).
        specialize (Hlast Hes Hq).
        exists s. rewrite map_app, length_app. simpl. rewrite Nat.add_1_r, seq_S, Hs, Hlast.
        split; [done|]. intros _ _. rewrite length_app. simpl. lia.
    + case_decide as HjN; [injection Hp0 as <-; done|].
      assert (Hp0p : p0 < p).
      { specialize (Hstart p0 es0 Hp0 Hne0). apply Forall_cons in Hstart as [H _].
        simpl in H. lia. }
      destruct (Hfresh p0 es0 Hp0) as (s & Hs & Hlast).
      { destruct Hft as [Hnd Hdis]. split; [done|].
        intros j esj ej e Hj' Hjl. apply (Hdis j esj ej e Hj').
        rewrite Hlk, decide_False, decide_False by lia. done. }
      exists s. split; [done|]. intros _ Hin. exfalso.
      rewrite map_app in Hin. apply elem_of_app in Hin as [Hin|Hin].
      * destruct (inv_front _ _ Inv p0 es0 Hp0 Hne0) as (it & rest' & Heq & Hit);
          [simpl; by right|].
        injection Heq as <- _. simpl in Hit. lia.
      * apply in_map_parent in Hin as (it & Hit & <-).
        rewrite Forall_forall in Hnw. specialize (Hnw it Hit). lia.
Qed.

Lemma bfs_order heap resolvers fuel al q al' :
  inv al q -> order_inv al q -> bfs heap resolvers fuel al q = Some (Ok al') ->
  order_inv al' [].
Proof.
  revert al q. induction fuel as [|fuel IH]; intros al q Inv Ord H; [discriminate|].
  simpl in H. destruct q as [|[[[scope p] l] node] rest].
  - inversion H; subst. done.
  - assert (Hp : p < length (edges al)).
    { rewrite (inv_len _ _ Inv). pose proof (inv_parents _ _ Inv) as Hpar.
      inversion Hpar; done. }
    destruct (push al p l node) as [[al1 slot]| |] eqn:Hpush; try discriminate.
    apply push_spec in Hpush as (es & Hes & [(i & Hv & -> & ->)|(Hv & -> & ->)]); [| |done].
    + simpl in H. eapply IH; [by eapply (inv_step_seen _ scope)| |exact H].
      by eapply order_step_seen.
    + simpl in H.
      destruct (expand heap resolvers scope (length (nodes al)) node rest) as [q'| |] eqn:Hexp;
        try discriminate.
      apply expand_appends in Hexp as (nw & -> & Hnw & _).
      eapply IH; [by eapply (inv_step_new _ scope)| |exact H].
      by eapply order_step_new.
Qed.

Lemma new_order heap schema root resolvers al :
  new heap schema root resolvers = Some (Ok al) -> order_inv al [].
Proof. intros H. eapply bfs_order; [apply inv_init|apply order_init|exact H]. Qed.

End OrderLemmas.

(** ** The claims *)

Section Claims.
Context `{R : Resolving}.

(** C1 (deduplication by identity).  When [AdjacencyList::new] succeeds, a
    value of the document is held by at most one node; every edge that
    leads to a node holding a value [p], whatever path it comes from,
    targets the one NodeId recorded for [p]; and popping an item whose
    value was visited before only appends an edge to that NodeId, leaving
    the rest of the queue as it is: the value's children are enqueued on
    its first visit only. *)
Theorem new_dedup heap schema root resolvers al :
  new heap schema root resolvers = Some (Ok al) ->
  (forall i j p, nodes al !! i = Some (At p) -> nodes al !! j = Some (At p) -> i = j) /\
  (forall j es e p, edges al !! j = Some es -> e ∈ es ->
     nodes al !! target e = Some (At p) -> visited al !! p = Some (target e)) /\
  (forall fuel al0 scope p l node rest i es,
     visited al0 !! node = Some i -> edges al0 !! p = Some es ->
     bfs heap resolvers (S fuel) al0 ((scope, p, l, node) :: rest) =
     bfs heap resolvers fuel
       {| nodes := nodes al0;
          edges := <[p := es ++ [{| label := l; target := i |}]]> (edges al0);
          visited := visited al0 |} rest).
Proof.
  intros H. pose proof (new_inv _ _ _ _ _ H) as Inv. split; [|split].
  - intros i j p. by apply inv_nodes_unique with (q := []).
  - intros j es e p _ _ Hn. by apply (inv_visited _ _ Inv).
  - intros fuel al0 scope p l node rest i es Hv Hes.
    simpl. unfold push, index. rewrite Hv. simpl. rewrite Hes. reflexivity.
Qed.

(** C2 (termination and node count).  [AdjacencyList::new] always
    terminates, cyclic references included; when it succeeds its
    non-sentinel nodes hold pairwise distinct values, and a value is held
    by a node exactly when some edge leads to it: the node count is the
    number of distinct values reached, however many edges reach each. *)
Theorem new_terminates_dedup heap schema root resolvers :
  new heap schema root resolvers <> None /\
  forall al, new heap schema root resolvers = Some (Ok al) ->
    exists ps, nodes al = StaticNull :: (At <$> ps) /\ NoDup ps /\
      forall p, p ∈ ps <-> exists j es e, edges al !! j = Some es /\ e ∈ es /\
                                         nodes al !! target e = Some (At p).
Proof.
  split; [apply new_total|].
  intros al H. pose proof (new_inv _ _ _ _ _ H) as Inv.
  destruct (inv_shape _ _ Inv) as [ps Hps].
  assert (Hat : forall a p, ps !! a = Some p -> nodes al !! S a = Some (At p)).
  { intros a p Ha. rewrite Hps. simpl. by rewrite list_lookup_fmap, Ha. }
  exists ps. split; [done|]. split.
  - apply NoDup_alt. intros a b p Ha Hb.
    assert (S a = S b) by (eapply (inv_nodes_unique _ _ _ _ _ Inv); eauto). lia.
  - intros p. split.
    + intros Hp. apply list_elem_of_lookup in Hp as [a Ha].
      pose proof (Hat _ _ Ha) as Hn.
      assert (Hd : 1 <= indeg al (S a)).
      { apply (inv_indeg _ _ Inv). apply lookup_lt_Some in Hn. lia. }
      destruct (indeg_of_edge _ _ Hd) as (j & es & e & Hj & He & Ht).
      exists j, es, e. by rewrite Ht.
    + intros (j & es & e & Hj & He & Hn). rewrite Hps in Hn.
      destruct (target e) as [|t]; simpl in Hn; [discriminate|].
      rewrite list_lookup_fmap in Hn.
      destruct (ps !! t) eqn:Ht; simpl in Hn; inversion Hn; subst.
      by eapply list_elem_of_lookup_2.
Qed.

(** C3, amended (contiguity of first-time children).  For a node [p] of
    the result of [AdjacencyList::new] whose edges lead to pairwise
    distinct nodes, none of which is the target of an edge of a node
    before [p] (the children are seen for the first time from [p], though
    later nodes may refer to them again), [range_of] gives a range whose
    length is the number of the node's edges, and each index of the range
    is the target of exactly one of them. *)
Theorem range_of_fresh_children heap schema root resolvers al p es :
  new heap schema root resolvers = Some (Ok al) ->
  edges al !! p = Some es ->
  NoDup (map target es) ->
  (forall j es' e' e, j < p -> edges al !! j = Some es' -> e' ∈ es' -> e ∈ es ->
     target e' <> target e) ->
  exists r, range_of al p = Ok r /\ range_len r = length es /\
    forall k, start r <= k < end_ r -> length (filter (fun e => target e = k) es) = 1.
Proof.
  intros H Hp Hnd Hdis. pose proof (new_order _ _ _ _ _ H) as Ord.
  destruct (oi_fresh _ _ Ord p es Hp) as (s & Hs & _); [split; done|].
  rewrite (range_of_consec _ _ _ _ Hp Hs). eexists; split; [done|].
  case_decide as Hnil.
  - subst. unfold range_len. simpl. split; [done|]. intros; lia.
  - unfold range_len. simpl. split; [lia|]. intros k Hk. apply (count_seq es s k Hs). lia.
Qed.

(** C4 (the compaction pass, missing from the code).  [build] calls
    [RangeGraph::compress] to remove the empty node slots and renumber the
    ranges, as its comment says, but the body of [compress] is the
    placeholder [todo!()]: on every range graph it panics, so [build]
    never returns a compressed range graph. *)
Theorem compress_unimplemented :
  (forall g, compress g = Panic "not yet implemented") /\
  (forall heap schema root resolvers c, build heap schema root resolvers <> Some (Ok c)).
Proof.
  split; [done|].
  intros heap schema root resolvers c. unfold build.
  destruct (new heap schema root resolvers) as [[al|e|m]|]; try discriminate.
  destruct (try_from heap al) as [[g|e|m]|]; discriminate.
Qed.

(** C5, amended (malformed keyword values).  [RangeGraph::try_from] never
    returns an [Err].  On an adjacency list built by [AdjacencyList::new],
    an edge anywhere in the list whose keyword label has a value of the
    wrong shape makes [try_from] panic: the node holding it is reached
    from the sentinel, so the loop reads its edges unless an earlier panic
    stops it first.  At that edge the panic is [Option::unwrap]'s for a
    value that is not a u64 under [maximum], [maxLength] or
    [minProperties], or not a string under [type], and "invalid type" for
    a string under [type] that names no type. *)
Theorem try_from_panics_not_err heap input :
  (forall err, try_from heap input <> Some (Err err)) /\
  (forall schema root resolvers n es e,
     new heap schema root resolvers = Some (Ok input) ->
     edges input !! n = Some es -> e ∈ es -> wrongly_shaped heap input e ->
     exists m, try_from heap input = Some (Panic m)) /\
  (forall g e v, node_value heap input (target e) = Ok v ->
     label e ∈ [Key "maximum"; Key "maxLength"; Key "minProperties"] ->
     as_u64 v = None ->
     keyword_edge heap input g e = Panic "called `Option::unwrap()` on a `None` value") /\
  (forall g e v, node_value heap input (target e) = Ok v -> label e = Key "type" ->
     as_str v = None ->
     keyword_edge heap input g e = Panic "called `Option::unwrap()` on a `None` value") /\
  (forall g e v name, node_value heap input (target e) = Ok v -> label e = Key "type" ->
     as_str v = Some name ->
     name ∉ ["array"; "boolean"; "integer"; "null"; "number"; "object"; "string"] ->
     keyword_edge heap input g e = Panic "invalid type").
Proof.
  assert (Hnoerr : forall err, try_from heap input <> Some (Err err)).
  { intros err. unfold try_from.
    destruct (index (edges input) 0) as [es0|e|m] eqn:Hi.
    - apply derive_loop_no_err.
    - exfalso. exact (no_err_index (edges input) 0 e Hi).
    - discriminate. }
  split; [exact Hnoerr|split; [|split; [|split]]].
  - intros schema root resolvers n es e Hnew Hes He Hw.
    assert (Hn0 : n <> 0).
    { intros ->. destruct (new_sentinel_edges _ _ _ _ _ Hnew) as [H0 _].
      rewrite H0 in Hes. injection Hes as <-. apply list_elem_of_singleton in He as ->.
      destruct Hw as [[Hl _]|[Hl _]]; simpl in Hl; [|discriminate].
      repeat (apply elem_of_cons in Hl as [Hl|Hl]; [discriminate|]). set_solver. }
    assert (Hr : reaches input 0 n).
    { apply (new_reaches_all _ _ _ _ _ _ Hnew). apply new_inv in Hnew.
      rewrite <- (inv_len _ _ Hnew). by apply lookup_lt_Some in Hes. }
    destruct (try_from heap input) as [[g|err|m]|] eqn:Ht.
    + exfalso. apply (try_from_covers _ _ _ _ Ht Hr). split; [done|]. eauto.
    + exfalso. exact (Hnoerr err eq_refl).
    + by exists m.
    + exfalso. exact (try_from_total _ _ Ht).
  - intros g e v Hv Hl Hu. unfold keyword_edge. rewrite Hv. simpl.
    repeat (apply elem_of_cons in Hl as [Hl|Hl]; [rewrite Hl; simpl; by rewrite Hu|]).
    set_solver.
  - intros g e v Hv Hl Hs. unfold keyword_edge. rewrite Hv, Hl. simpl. by rewrite Hs.
  - intros g e v name Hv Hl Hs Hn. unfold keyword_edge. rewrite Hv, Hl. simpl.
    rewrite Hs. simpl. unfold value_type.
    repeat (rewrite (proj2 (String.eqb_neq _ _)) by (intros ->; set_solver)).
    done.
Qed.

(** C6 (cross-document resolution).  When [AdjacencyList::new] succeeds
    and one of its nodes holds an object with a member ["$ref"] whose
    string is an absolute location registered in [resolvers], that node
    has an edge labelled ["$ref"] to a node holding the value the
    registered resolver designates, not the reference string. *)
Theorem new_cross_document heap schema root resolvers al i p object v reference loc
    res fs resolved :
  new heap schema root resolvers = Some (Ok al) ->
  nodes al !! i = Some (At p) -> deref heap p = Object object ->
  ("$ref", v) ∈ object -> deref heap v = String reference ->
  reference_try_from reference = Ok (Absolute loc) ->
  resolvers !! url_as_str loc = Some res -> resolve res reference = Ok (fs, resolved) ->
  exists es e, edges al !! i = Some es /\ e ∈ es /\ label e = Key "$ref" /\
    nodes al !! target e = Some (At resolved).
Proof.
  intros H Hi Hp Hm Hv Hr Hres Hfr.
  pose proof (new_inv _ _ _ _ _ H) as Inv.
  assert (Hi1 : 1 <= i).
  { destruct i; [|lia]. destruct (inv_shape _ _ Inv) as [ps Hps].
    rewrite Hps in Hi. discriminate. }
  unfold new in H.
  destruct (bfs_expanded _ _ _ _ _ _ i p (inv_init schema (scope_new root)) H)
    as (scope & q0 & q1 & Hexp & Hedge); [simpl; lia|done|].
  unfold expand in Hexp. rewrite Hp in Hexp.
  pose proof (expand_members_absolute _ _ _ _ _ _ _ _ _ _ _ _ _ Hexp Hm Hv Hr Hres Hfr) as Hin.
  exact (Hedge _ Hin eq_refl).
Qed.

(** C7 (unknown document).  When the popped value is new and is an
    object whose member ["$ref"] holds a relative, non-local reference
    whose built location is neither claimed by the current resolver nor
    registered, the traversal stops with the panic of
    [.expect("Unknown reference")] (provided the members before it
    expanded without failure), not with an [Err]. *)
Theorem bfs_unknown_reference heap resolvers fuel al scope p l node rest pre v post
    q1 reference location loc' :
  let scope' := track_folder heap scope (pre ++ ("$ref", v) :: post) in
  visited al !! node = None -> p < length (edges al) ->
  deref heap node = Object (pre ++ ("$ref", v) :: post) ->
  expand_members heap resolvers scope' (length (nodes al)) pre rest = Ok q1 ->
  deref heap v = String reference ->
  reference_try_from reference = Ok (Relative location) ->
  is_local location = false ->
  build_url scope' (resolver_scope (resolver scope')) location = Ok loc' ->
  contains (resolver scope') (url_as_str loc') = false ->
  resolvers !! url_as_str loc' = None ->
  bfs heap resolvers (S fuel) al ((scope, p, l, node) :: rest) = Some (Panic "Unknown reference").
Proof.
  intros scope' Hv Hp Hobj Hpre Href Hrel Hloc Hurl Hcont Hreg.
  simpl. unfold push, index. rewrite Hv. simpl.
  rewrite lookup_app_l by done.
  destruct (edges al !! p) as [es|] eqn:Hes; [|apply lookup_ge_None in Hes; lia]. simpl.
  unfold expand. rewrite Hobj. fold scope'.
  rewrite expand_members_app, Hpre. simpl.
  unfold expand_member. simpl. rewrite Href, Hrel. simpl.
  rewrite Hloc, Hurl. simpl. rewrite Hcont, Hreg. reflexivity.
Qed.

(** C8 (building a location).  [Scope::build_url] joins the base with
    every segment after the first, in push order, then joins the
    reference ([build_url_spec]); the first segment never takes part.
    Joining itself is [url_join], the url crate's [Url::join]. *)
Theorem build_url_joins_tail (s : Scope) base reference :
  build_url s base reference = build_url_spec s base reference /\
  forall f0 f1 fs r,
    build_url (with_folders r (f0 :: fs)) base reference =
    build_url (with_folders r (f1 :: fs)) base reference.
Proof.
  assert (Hs : forall s, build_url s base reference = build_url_spec s base reference).
  { intros s'. unfold build_url, build_url_spec.
    destruct (folders s') as [|f0 [|f1 fs]]; simpl; [done|done|].
    rewrite join_all_segments. done. }
  split; [apply Hs|]. intros f0 f1 fs r. rewrite !Hs. done.
Qed.

(** C9 (no children).  For a node with no outgoing edges [range_of]
    returns the empty range [0..0]. *)
Theorem range_of_no_edges al i :
  edges al !! i = Some [] ->
  exists r, range_of al i = Ok r /\ start r = 0 /\ end_ r = 0 /\ range_len r = 0.
Proof.
  intros H. unfold range_of, index. rewrite H. simpl. by eexists.
Qed.

(** C10 (non-string references).  A member ["$ref"] whose value is not a
    string leaves the queue unchanged and reports nothing: no child is
    enqueued, so no edge or node comes from it; any other member enqueues
    its value as a child under its key. *)
Theorem ref_non_string_skipped heap resolvers scope sid key value q :
  (key = "$ref" -> (forall s, deref heap value <> String s) ->
     expand_member heap resolvers scope sid key value q = Ok q) /\
  (key <> "$ref" ->
     expand_member heap resolvers scope sid key value q = Ok (q ++ [(scope, sid, Key key, value)])).
Proof.
  split.
  - intros -> Hs. unfold expand_member. simpl.
    destruct (deref heap value) as [| | |s| |]; try done. by destruct (Hs s).
  - intros Hk. unfold expand_member. rewrite (proj2 (String.eqb_neq _ _) Hk). done.
Qed.

End Claims.

Section Extras.
Context `{R : Resolving}.

(** X1 ([AdjacencyList::push]).  When the visited map only points to nodes
    holding the recorded value, a successful [push] records [node] in
    [visited] under the returned slot id, the node array holds [node] at
    that id, the slot is new exactly when [node] was not visited, the
    parent's edge list becomes its previous list (empty when the parent is
    the node just created) followed by an edge to the slot, the nodes only
    grow, the
    other edge lists are untouched, and the visited map still points to
    the nodes holding its values. *)
Theorem push_records_node al parent l node al' slot :
  (forall a i, visited al !! a = Some i -> nodes al !! i = Some (At a)) ->
  push al parent l node = Ok (al', slot) ->
  visited al' !! node = Some (id slot) /\
  nodes al' !! id slot = Some (At node) /\
  (is_new slot = true <-> visited al !! node = None) /\
  edges al' !! parent =
    Some (default [] (edges al !! parent) ++ [{| label := l; target := id slot |}]) /\
  nodes al `prefix_of` nodes al' /\
  (forall j, j <> parent -> j < length (edges al) -> edges al' !! j = edges al !! j) /\
  (forall a i, visited al' !! a = Some i -> nodes al' !! i = Some (At a)).
Proof.
  intros Hc. unfold push. destruct (visited al !! node) as [i|] eqn:Hv; simpl; unfold index.
  - destruct (edges al !! parent) as [es|] eqn:He; simpl; [|discriminate].
    intros H; inversion H; subst; simpl. clear H.
    split; [done|]. split; [by apply Hc|]. split; [split; discriminate|].
    split; [apply list_lookup_insert_eq; by apply lookup_lt_Some in He|].
    split; [done|]. split; [|exact Hc].
    intros j Hj _. by rewrite list_lookup_insert_ne by congruence.
  - destruct ((edges al ++ [[]]) !! parent) as [es|] eqn:He; simpl; [|discriminate].
    intros H; inversion H; subst; simpl. clear H.
    split; [by rewrite lookup_insert_eq|].
    split; [by rewrite lookup_app_r, Nat.sub_diag by lia|].
    split; [split; done|].
    assert (Hes : es = default [] (edges al !! parent)).
    { destruct (edges al !! parent) as [es0|] eqn:Ho.
      - rewrite (lookup_app_l_Some _ _ _ _ Ho) in He. by injection He.
      - apply lookup_ge_None in Ho. rewrite lookup_app_r in He by lia.
        destruct (parent - length (edges al)) as [|k]; simpl in He; [|by rewrite lookup_nil in He].
        by injection He as <-. }
    split; [rewrite <- Hes; apply list_lookup_insert_eq; by apply lookup_lt_Some in He|].
    split; [by exists [At node]|]. split.
    + intros j Hj Hlt. rewrite list_lookup_insert_ne by congruence.
      by rewrite lookup_app_l by done.
    + intros a j Ha. destruct (decide (a = node)) as [->|Hne].
      * rewrite lookup_insert_eq in Ha. inversion Ha; subst.
        by rewrite lookup_app_r, Nat.sub_diag by lia.
      * rewrite lookup_insert_ne in Ha by congruence.
        apply lookup_app_l_Some. by apply Hc.
Qed.

(** X2 ([AdjacencyList::push], bounds).  [push] panics with "index out of
    bounds" when the parent id is past the edge lists: past the current
    ones for a value already visited, past the current ones and the one
    appended for the new node otherwise. *)
Theorem push_parent_out_of_bounds al parent l node :
  length (edges al) + (match visited al !! node with Some _ => 0 | None => 1 end) <= parent ->
  push al parent l node = Panic "index out of bounds".
Proof.
  unfold push. destruct (visited al !! node) as [i|]; simpl; intros Hp; unfold index.
  - rewrite lookup_ge_None_2 by lia. done.
  - rewrite lookup_ge_None_2 by (rewrite length_app; simpl; lia). done.
Qed.

(** X3 ([AdjacencyList::new], shape of the result).  When [new] succeeds,
    node 0 is the sentinel [StaticNull], there is one edge list per node,
    every edge targets a node in [1 .. length nodes - 1] (never the
    sentinel, never out of range), and [visited] maps a value to a NodeId
    exactly when that node holds the value. *)
Theorem new_well_formed heap schema root resolvers al :
  new heap schema root resolvers = Some (Ok al) ->
  nodes al !! 0 = Some StaticNull /\
  length (edges al) = length (nodes al) /\
  (forall j es e, edges al !! j = Some es -> e ∈ es -> 1 <= target e < length (nodes al)) /\
  (forall p i, visited al !! p = Some i <-> nodes al !! i = Some (At p)).
Proof.
  intros H. apply new_inv in H as Inv.
  destruct (inv_shape _ _ Inv) as [ps Hps]. rewrite Hps. split; [done|].
  rewrite <- Hps. split; [exact (inv_len _ _ Inv)|].
  split; [exact (inv_targets _ _ Inv)|exact (inv_visited _ _ Inv)].
Qed.

(** X4 ([AdjacencyList::new], the sentinel).  When [new] succeeds, the
    schema value is node 1 and the sentinel node 0 has exactly one edge,
    labelled [Index 0], to node 1: no later item is ever attached to the
    sentinel. *)
Theorem new_sentinel_edge heap schema root resolvers al :
  new heap schema root resolvers = Some (Ok al) ->
  edges al !! 0 = Some [{| label := Index 0; target := 1 |}] /\
  nodes al !! 1 = Some (At schema).
Proof. apply new_sentinel_edges. Qed.

(** X5 ([AdjacencyList::new], members and items).  When [new] succeeds,
    every member of an object node whose key is not [$ref] is an edge of
    that node labelled with the key and leading to the node of the
    member's value, and every element of an array node is an edge
    labelled with its index and leading to the node of the element. *)
Theorem new_member_edges heap schema root resolvers al i p :
  new heap schema root resolvers = Some (Ok al) ->
  nodes al !! i = Some (At p) ->
  (forall object key v, deref heap p = Object object -> (key, v) ∈ object -> key <> "$ref" ->
     exists es e, edges al !! i = Some es /\ e ∈ es /\ label e = Key key /\
       nodes al !! target e = Some (At v)) /\
  (forall items idx v, deref heap p = Array items -> items !! idx = Some v ->
     exists es e, edges al !! i = Some es /\ e ∈ es /\ label e = Index idx /\
       nodes al !! target e = Some (At v)).
Proof.
  intros H Hn.
  assert (Hi : length (nodes empty) <= i).
  { destruct (inv_shape _ _ (new_inv _ _ _ _ _ H)) as [ps Hps].
    destruct i as [|i]; [|simpl; lia]. rewrite Hps in Hn. discriminate. }
  destruct (bfs_expanded _ _ _ _ _ _ _ _ (inv_init schema (scope_new root)) H Hi Hn)
    as (scope & q0 & q1 & Hexp & Hedges).
  unfold expand in Hexp. split.
  - intros object key v Hp Hm Hk. rewrite Hp in Hexp.
    apply (Hedges (track_folder heap scope object, i, Key key, v));
      [by eapply expand_members_plain|done].
  - intros items idx v Hp Hv. rewrite Hp in Hexp. inversion Hexp; subst q1.
    apply (Hedges (scope, i, Index idx, v)); [|done].
    apply elem_of_app. right. apply list_elem_of_lookup. exists idx.
    rewrite list_lookup_imap, Hv. done.
Qed.

(** X6 ([AdjacencyList::new], a schema without children).  When the
    schema value has no member and no element (a scalar, [{}] or [[]]),
    [new] returns the sentinel and the schema node, the sentinel's one
    edge to node 1, and the schema recorded as node 1. *)
Theorem new_leaf_schema heap schema root resolvers :
  n_children (deref heap schema) = 0 ->
  new heap schema root resolvers =
    Some (Ok {| nodes := [StaticNull; At schema];
                edges := [[{| label := Index 0; target := 1 |}]; []];
                visited := {[schema := 1]} |}).
Proof.
  intros Hn. unfold new, traversal_fuel.
  replace (2 + pending heap ∅) with (S (S (pending heap ∅))) by lia.
  assert (Hp : push empty 0 (Index 0) schema =
    Ok ({| nodes := [StaticNull; At schema];
           edges := [[{| label := Index 0; target := 1 |}]; []];
           visited := {[schema := 1]} |}, new_slot 1)).
  { unfold push. simpl. rewrite lookup_empty. simpl. by rewrite insert_empty. }
  cbn [bfs]. rewrite Hp. cbn [is_new id new_slot].
  unfold expand. destruct (deref heap schema) as [| | | |items|object]; simpl in Hn;
    try reflexivity.
  - apply length_zero_iff_nil in Hn. subst items. reflexivity.
  - apply length_zero_iff_nil in Hn. subst object. reflexivity.
Qed.

(** X7 ([RangeGraph::try_from], sizes).  When [try_from] succeeds, the
    range graph has one node slot per node and one edge slot per edge list
    of the adjacency list it was built from. *)
Theorem try_from_lengths heap input g :
  try_from heap input = Some (Ok g) ->
  length (rg_nodes g) = length (nodes input) /\ length (rg_edges g) = length (edges input).
Proof.
  intros H. apply try_from_sound in H as [Hn He _ _]. done.
Qed.

(** X8 ([RangeGraph::try_from], keywords).  When [try_from] succeeds, every
    keyword it stores at slot [i] is the keyword of the label of some edge
    leading to node [i]: [maximum], [maxLength] and [minProperties] carry
    the unsigned integer held by node [i], [type] the type named by the
    string held by node [i], and [properties], [allOf] and [$ref] the
    range of node [i]. *)
Theorem try_from_keywords_sound heap input g i kw :
  try_from heap input = Some (Ok g) ->
  rg_nodes g !! i = Some (Some kw) -> keyword_sound heap input i kw.
Proof.
  intros H. apply try_from_sound in H as [_ _ Hk _]. apply Hk.
Qed.

(** X9 ([RangeGraph::try_from], ranged edges).  When [try_from] succeeds,
    every ranged edge stored at slot [i] has the label of some edge leading
    to node [i] and holds the range of node [i]. *)
Theorem try_from_edges_sound heap input g i re :
  try_from heap input = Some (Ok g) ->
  rg_edges g !! i = Some (Some re) -> ranged_edge_sound input i re.
Proof.
  intros H. apply try_from_sound in H as [_ _ _ Hr]. apply Hr.
Qed.

(** X10 ([RangeGraph::try_from], termination).  On every adjacency list,
    the loop of [try_from] stops: each queue entry is either skipped, or
    marks its node visited and enqueues exactly the edges of that node,
    so the loop runs at most [1 + (number of edges)] rounds besides the
    final empty check. *)
Theorem try_from_terminates heap input : try_from heap input <> None.
Proof. apply try_from_total. Qed.

(** X11 ([AdjacencyList::new] then [RangeGraph::try_from]).  On the
    adjacency list built by [new], [try_from] never stores a keyword or a
    ranged edge in slot 0, the sentinel's: both slots exist and stay
    [None], since no edge of that list targets node 0. *)
Theorem new_try_from_sentinel_empty heap schema root resolvers al g :
  new heap schema root resolvers = Some (Ok al) ->
  try_from heap al = Some (Ok g) ->
  rg_nodes g !! 0 = Some None /\ rg_edges g !! 0 = Some None.
Proof.
  intros Hn Ht. apply new_inv in Hn as Inv. apply try_from_sound in Ht as [Hnl Hel Hk Hr].
  assert (Hlen : 0 < length (nodes al)).
  { destruct (inv_shape _ _ Inv) as [ps ->]. simpl. lia. }
  assert (Hno : forall k, ~ labelled al 0 k).
  { intros k (j & es & e & Hj & He & Ht & _).
    pose proof (inv_targets _ _ Inv j es e Hj He). lia. }
  split.
  - destruct (rg_nodes g !! 0) as [[kw|]|] eqn:H0; [|done|].
    + apply Hk, keyword_sound_labelled in H0 as [k Hl]. by apply Hno in Hl.
    + apply lookup_ge_None in H0. lia.
  - destruct (rg_edges g !! 0) as [[re|]|] eqn:H0; [|done|].
    + apply Hr in H0 as [(j & es & e & Hj & He & Ht & _) _].
      pose proof (inv_targets _ _ Inv j es e Hj He). lia.
    + apply lookup_ge_None in H0. rewrite (inv_len _ _ Inv) in Hel. lia.
Qed.

End Extras.

(** ** The claims on the example documents *)

Import LocalResolving Examples.

(** C1 on [{"allOf": [X, X]}]: the two items of the list are two edges
    of node 2, and both lead to node 3, the one node holding [X]. *)
Lemma new_dedup_witness :
  edges (result shared_heap) !! 2 =
    Some [{| label := Index 0; target := 3 |}; {| label := Index 1; target := 3 |}] /\
  visited (result shared_heap) !! 2 = Some 3.
Proof.
  assert (H : new shared_heap 0 (doc shared_heap) ∅ = Some (Ok (result shared_heap)))
    by (vm_compute; reflexivity).
  destruct (new_dedup _ _ _ _ _ H) as (_ & Hedge & _). split.
  - vm_compute. reflexivity.
  - apply (Hedge 2 [{| label := Index 0; target := 3 |}; {| label := Index 1; target := 3 |}]
             {| label := Index 0; target := 3 |} 2);
      [vm_compute; reflexivity|left|vm_compute; reflexivity].
Defined.

(** C2 on the self-referencing [{"$ref": "#"}]. *)
Lemma new_terminates_dedup_witness :
  compile cycle_heap <> None /\
  exists ps, nodes (result cycle_heap) = StaticNull :: (At <$> ps) /\ NoDup ps.
Proof.
  destruct (new_terminates_dedup (R := local_resolving) cycle_heap 0 (doc cycle_heap) ∅) as [Ht Hd].
  split; [exact Ht|].
  destruct (Hd (result cycle_heap)) as (ps & Hps & Hnd & _); [vm_compute; reflexivity|].
  exists ps. split; assumption.
Defined.

(** C3 on [{"a": {}, "b": {}, "c": {"$ref": "#/a"}}]: the root's three
    children are first-time children, though node 4 refers back to node 2
    later; the range of the root has length 3. *)
Lemma range_of_fresh_children_witness :
  edges (result later_ref_heap) !! 4 = Some [{| label := Key "$ref"; target := 2 |}] /\
  exists r, range_of (result later_ref_heap) 1 = Ok r /\ range_len r = 3.
Proof.
  split; [vm_compute; reflexivity|].
  destruct (range_of_fresh_children (R := local_resolving) later_ref_heap 0 (doc later_ref_heap)
              ∅ (result later_ref_heap) 1
              [{| label := Key "a"; target := 2 |}; {| label := Key "b"; target := 3 |};
               {| label := Key "c"; target := 4 |}])
    as (r & Hr & Hlen & _);
    [vm_compute; reflexivity|vm_compute; reflexivity|simpl; repeat constructor; set_solver| |].
  - intros j es' e' e Hj Hjl He' He. assert (j = 0) as -> by lia.
    vm_compute in Hjl. injection Hjl as <-. apply list_elem_of_singleton in He' as ->.
    repeat (apply elem_of_cons in He as [->|He]; [simpl; lia|]). set_solver.
  - exists r. split; assumption.
Defined.

(** C3, counterexample: in [{"$ref": "#/a", "a": {}}] the root (node 1)
    has two edges, and both lead to node 2, the one node holding the
    member [a]: the reference is resolved first and the member then finds
    its value visited.  [range_of] gives the range 2..3, of length 1. *)
Lemma range_of_ref_sibling_gap :
  compile ref_sibling_heap = Some (Ok (result ref_sibling_heap)) /\
  edges (result ref_sibling_heap) !! 1 =
    Some [{| label := Key "$ref"; target := 2 |}; {| label := Key "a"; target := 2 |}] /\
  range_of (result ref_sibling_heap) 1 = Ok {| start := 2; end_ := 3 |} /\
  range_len {| start := 2; end_ := 3 |} = 1.
Proof. vm_compute. repeat split; reflexivity. Qed.

(** C4, failing input: building [{"maximum": 5}] ends in the panic of
    [todo!()] once the two earlier passes succeed (for every instance of
    the collaborators, [build_maximum]); no compressed graph comes out. *)
Lemma build_maximum_panics :
  build (R := local_resolving) maximum_heap 0 (doc maximum_heap) ∅ =
    Some (Panic "not yet implemented").
Proof. apply (build_maximum (R := local_resolving)). Qed.

(** C5, counterexample: [{"maximum": "x"}] is compiled to an adjacency
    list, and [RangeGraph::try_from] panics on it instead of returning an
    error. *)
Lemma try_from_bad_maximum :
  compile bad_maximum_heap = Some (Ok bad_maximum_list) /\
  try_from (R := local_resolving) bad_maximum_heap bad_maximum_list =
    Some (Panic "called `Option::unwrap()` on a `None` value").
Proof. split; [unfold compile; apply (new_bad_maximum (R := local_resolving))|apply (try_from_bad_maximum_list (R := local_resolving))]. Qed.

(** C5 on [{"maximum": "x"}]: the edge of node 1 labelled [maximum] leads
    to a string, so [try_from] panics on the list [new] builds. *)
Lemma try_from_panics_not_err_witness :
  exists m, try_from (R := local_resolving) bad_maximum_heap bad_maximum_list = Some (Panic m).
Proof.
  destruct (try_from_panics_not_err (R := local_resolving) bad_maximum_heap bad_maximum_list)
    as (_ & Hp & _).
  apply (Hp 0 (doc bad_maximum_heap) ∅ 1 [{| label := Key "maximum"; target := 2 |}]
           {| label := Key "maximum"; target := 2 |}).
  - apply (new_bad_maximum (R := local_resolving)).
  - reflexivity.
  - left.
  - left. split; [left|]. intros v Hv. vm_compute in Hv. injection Hv as <-. reflexivity.
Defined.

(** C6 on [{"$ref": "http://example.com/other.json"}]: the root object
    (node 1) has an edge ["$ref"] to the node holding the registered
    document [{"type": "string"}]. *)
Lemma new_cross_document_witness :
  exists es e, edges (cross_result) !! 1 = Some es /\ e ∈ es /\ label e = Key "$ref" /\
    nodes cross_result !! target e = Some (At 2).
Proof.
  apply (new_cross_document (R := local_resolving) cross_heap 0 (doc cross_heap) cross_registry cross_result 1 0
           [("$ref", 1)] 1 other_base other_base other_doc [] 2);
    try (vm_compute; reflexivity). left.
Defined.

(** C7 on [{"$ref": "other.json"}] with an empty registry. *)
Lemma bfs_unknown_reference_witness :
  compile unknown_heap = Some (Panic "Unknown reference").
Proof.
  unfold compile, new. change (traversal_fuel unknown_heap) with (S 2).
  apply (bfs_unknown_reference (R := local_resolving) unknown_heap ∅ 2 empty (scope_new (R := local_resolving) (doc unknown_heap)) 0 (Index 0) 0
           [] [] 1 [] [] "other.json" "other.json" "http://example.com/other.json");
    vm_compute; reflexivity.
Defined.

(** C8 with two segments: only the second is joined. *)
Lemma build_url_joins_tail_witness :
  build_url (with_folders (doc []) ["http://example.com/root.json"; "sub/"])
    root_base "other.json" = Ok "http://example.com/sub/other.json".
Proof.
  rewrite (proj1 (build_url_joins_tail (R := local_resolving) _ _ _)). vm_compute. reflexivity.
Defined.

(** C9 on [{"a": {}, "b": {}}]: node 2 has no edges. *)
Lemma range_of_no_edges_witness :
  exists r, range_of (result siblings_heap) 2 = Ok r /\ range_len r = 0.
Proof.
  destruct (range_of_no_edges (R := local_resolving) (result siblings_heap) 2) as (r & Hr & _ & _ & Hl);
    [vm_compute; reflexivity|].
  exists r. split; assumption.
Defined.

(** C10 on [{"$ref": 1}]: the member enqueues nothing. *)
Lemma ref_non_string_skipped_witness :
  expand_member non_string_ref_heap ∅ (scope_new (R := local_resolving) (doc non_string_ref_heap)) 1 "$ref" 1 [] = Ok [].
Proof.
  apply (proj1 (ref_non_string_skipped (R := local_resolving) non_string_ref_heap ∅ (scope_new (R := local_resolving) (doc non_string_ref_heap))
                  1 "$ref" 1 [])); [reflexivity|intros s; vm_compute; discriminate].
Defined.

(** ** The extra properties on the example documents *)

(** X1 on the first push of a traversal: the schema value becomes node 1. *)
Lemma push_records_node_witness :
  push empty 0 (Index 0) 5 =
    Ok ({| nodes := [StaticNull; At 5];
           edges := [[{| label := Index 0; target := 1 |}]; []];
           visited := {[5 := 1]} |}, new_slot 1) /\
  visited ({| nodes := [StaticNull; At 5];
              edges := [[{| label := Index 0; target := 1 |}]; []];
              visited := {[5 := 1]} |}) !! 5 = Some 1.
Proof.
  assert (Hp : push empty 0 (Index 0) 5 =
    Ok ({| nodes := [StaticNull; At 5];
           edges := [[{| label := Index 0; target := 1 |}]; []];
           visited := {[5 := 1]} |}, new_slot 1)) by (vm_compute; reflexivity).
  split; [exact Hp|].
  apply (push_records_node empty 0 (Index 0) 5 _ (new_slot 1)); [|exact Hp].
  intros a i Ha. vm_compute in Ha. discriminate.
Defined.

(** X2 on [empty]: a parent 3 is past the two edge lists [push] can see. *)
Lemma push_parent_out_of_bounds_witness :
  length (edges empty) + (match visited empty !! 5 with Some _ => 0 | None => 1 end) <= 3 /\
  push empty 3 (Index 0) 5 = Panic "index out of bounds".
Proof.
  split; [vm_compute; lia|].
  apply push_parent_out_of_bounds. vm_compute. lia.
Defined.

(** X3 on [{"properties": {"a": {"maximum": 5}}}]. *)
Lemma new_well_formed_witness :
  compile properties_heap = Some (Ok (result properties_heap)) /\
  nodes (result properties_heap) !! 0 = Some StaticNull /\
  length (edges (result properties_heap)) = 5.
Proof.
  assert (H : new properties_heap 0 (doc properties_heap) ∅ =
              Some (Ok (result properties_heap))) by (vm_compute; reflexivity).
  destruct (new_well_formed _ _ _ _ _ H) as (H0 & Hlen & _).
  split; [exact H|]. split; [exact H0|]. rewrite Hlen. vm_compute. reflexivity.
Defined.

(** X4 on [{"properties": {"a": {"maximum": 5}}}]. *)
Lemma new_sentinel_edge_witness :
  compile properties_heap = Some (Ok (result properties_heap)) /\
  edges (result properties_heap) !! 0 = Some [{| label := Index 0; target := 1 |}].
Proof.
  assert (H : new properties_heap 0 (doc properties_heap) ∅ =
              Some (Ok (result properties_heap))) by (vm_compute; reflexivity).
  split; [exact H|]. apply (new_sentinel_edge _ _ _ _ _ H).
Defined.

(** X5 on [{"a": {}, "b": {}}]: the member [b] is an edge of node 1. *)
Lemma new_member_edges_witness :
  compile siblings_heap = Some (Ok (result siblings_heap)) /\
  nodes (result siblings_heap) !! 1 = Some (At 0) /\
  exists es e, edges (result siblings_heap) !! 1 = Some es /\ e ∈ es /\
    label e = Key "b" /\ nodes (result siblings_heap) !! target e = Some (At 2).
Proof.
  assert (H : new siblings_heap 0 (doc siblings_heap) ∅ =
              Some (Ok (result siblings_heap))) by (vm_compute; reflexivity).
  assert (Hn : nodes (result siblings_heap) !! 1 = Some (At 0)) by (vm_compute; reflexivity).
  split; [exact H|]. split; [exact Hn|].
  destruct (new_member_edges _ _ _ _ _ _ _ H Hn) as [Hobj _].
  apply (Hobj [("a", 1); ("b", 2)]); [vm_compute; reflexivity| |discriminate].
  apply list_elem_of_In. simpl. auto.
Defined.

(** X6 on the schema ["x"]. *)
Lemma new_leaf_schema_witness :
  n_children (deref [String "x"] 0) = 0 /\
  compile [String "x"] =
    Some (Ok {| nodes := [StaticNull; At 0];
                edges := [[{| label := Index 0; target := 1 |}]; []];
                visited := {[0 := 1]} |}).
Proof.
  split; [reflexivity|]. unfold compile.
  apply (new_leaf_schema (R := local_resolving)). reflexivity.
Defined.

(** X7 on [{"properties": {"a": {"maximum": 5}}}]. *)
Lemma try_from_lengths_witness :
  try_from properties_heap (result properties_heap) = Some (Ok (graph properties_heap)) /\
  length (rg_nodes (graph properties_heap)) = 5.
Proof.
  assert (H : try_from properties_heap (result properties_heap) =
              Some (Ok (graph properties_heap))) by (vm_compute; reflexivity).
  split; [exact H|]. destruct (try_from_lengths _ _ _ H) as [Hn _].
  rewrite Hn. vm_compute. reflexivity.
Defined.

(** X8 on [{"properties": {"a": {"maximum": 5}}}]: node 4 holds [5]. *)
Lemma try_from_keywords_sound_witness :
  try_from properties_heap (result properties_heap) = Some (Ok (graph properties_heap)) /\
  rg_nodes (graph properties_heap) !! 4 = Some (Some (Maximum 5)) /\
  node_value properties_heap (result properties_heap) 4 = Ok (Num (PosInt 5)).
Proof.
  assert (H : try_from properties_heap (result properties_heap) =
              Some (Ok (graph properties_heap))) by (vm_compute; reflexivity).
  assert (Hk : rg_nodes (graph properties_heap) !! 4 = Some (Some (Maximum 5)))
    by (vm_compute; reflexivity).
  split; [exact H|]. split; [exact Hk|].
  apply (try_from_keywords_sound _ _ _ _ _ H Hk).
Defined.

(** X9 on [{"properties": {"a": {"maximum": 5}}}]: the member [a] is the
    ranged edge of node 3, with the range [4..5] of node 3. *)
Lemma try_from_edges_sound_witness :
  try_from properties_heap (result properties_heap) = Some (Ok (graph properties_heap)) /\
  rg_edges (graph properties_heap) !! 3 =
    Some (Some {| re_label := Key "a"; re_nodes := {| start := 4; end_ := 5 |} |}) /\
  range_of (result properties_heap) 3 = Ok {| start := 4; end_ := 5 |}.
Proof.
  assert (H : try_from properties_heap (result properties_heap) =
              Some (Ok (graph properties_heap))) by (vm_compute; reflexivity).
  assert (He : rg_edges (graph properties_heap) !! 3 =
    Some (Some {| re_label := Key "a"; re_nodes := {| start := 4; end_ := 5 |} |}))
    by (vm_compute; reflexivity).
  split; [exact H|]. split; [exact He|].
  apply (try_from_edges_sound _ _ _ _ _ H He).
Defined.

(** X11 on [{"properties": {"a": {"maximum": 5}}}]. *)
Lemma new_try_from_sentinel_empty_witness :
  compile properties_heap = Some (Ok (result properties_heap)) /\
  try_from properties_heap (result properties_heap) = Some (Ok (graph properties_heap)) /\
  rg_nodes (graph properties_heap) !! 0 = Some None.
Proof.
  assert (Hn : new properties_heap 0 (doc properties_heap) ∅ =
               Some (Ok (result properties_heap))) by (vm_compute; reflexivity).
  assert (Ht : try_from properties_heap (result properties_heap) =
               Some (Ok (graph properties_heap))) by (vm_compute; reflexivity).
  split; [exact Hn|]. split; [exact Ht|].
  apply (new_try_from_sentinel_empty _ _ _ _ _ _ Hn Ht).
Defined.
